(** * memCache: an in-process key-value cache with per-entry expiration

    A shallow embedding of [memCache.go] and the properties of its
    operations.  The embedding follows the Go source declaration by
    declaration:

    - [int64] values ([Item.Expiration], [time.Duration], the result of
      [Time.UnixNano]) are integers of [Z]; the two's complement
      wrap-around of the Go runtime is written out in [wrap64];
    - a [time.Time] is the exact number of nanoseconds since the Unix
      epoch; every call of [time.Now()] is an explicit argument of the
      operation that makes it;
    - [interface{}] is [any]: the nil interface or a dynamic value of a
      type [T] the cache never inspects;
    - [map[string]Item] is a [gomap]: a nil map or a finite map, with
      Go's rules for reading, measuring, ranging, deleting from and
      assigning into a nil map;
    - the methods of [*Cache] are named [Cache_Set], [Cache_Get], ... as
      [Set] and [Delete] are taken in Rocq; the receiver is the cache
      state, passed in and (for the writers) returned;
    - the reader/writer lock makes each method body one atomic step; the
      background goroutine [GC] is a step relation interleaved with the
      callers' steps;
    - [fmt.Println] only writes to the console and is left out. *)

From Stdlib Require Import ZArith Lia.
From stdpp Require Import base option list gmap strings fin_maps pretty.

Open Scope Z_scope.

(** ** Machine integers and time *)

Definition min_int64 : Z := - 2 ^ 63.
Definition max_int64 : Z := 2 ^ 63 - 1.

(** The value an [int64] computation keeps of an exact integer. *)
Definition wrap64 (z : Z) : Z := (z + 2 ^ 63) mod 2 ^ 64 - 2 ^ 63.

Definition is_int64 (z : Z) : Prop := min_int64 <= z <= max_int64.

(** [time.Duration]: an [int64] count of nanoseconds. *)
Definition Duration := Z.

(** [time.Time]: an instant, as exact nanoseconds since the Unix epoch. *)
Definition Time := Z.

(** [Time.Add]. *)
Definition Add (t : Time) (d : Duration) : Time := t + d.

(** [Time.UnixNano]: the instant as an [int64]; the multiplication by
    [1e9] inside it wraps for instants outside the years 1678..2262. *)
Definition UnixNano (t : Time) : Z := wrap64 t.

(** ** Failure of a call *)

Inductive outcome (A : Type) : Type :=
  | Returns (a : A)
  | Panics (msg : string).
Arguments Returns {A} a.
Arguments Panics {A} msg.

(** The [error] interface: nil, or the value built by [errors.New]. *)
Inductive error : Type :=
  | nil_error
  | errors_New (text : string).

Definition KeyNotFound : error := errors_New "Key not found".

Section Cache.

(** The dynamic values callers store; the cache is parametric in them. *)
Context {T : Type}.

(** [interface{}]: [None] is the nil interface. *)
Definition any : Type := option T.
Definition nil_any : any := None.

Record Item : Type := mkItem {
  Value : any;
  Created : Time;
  Expiration : Z
}.

(** ** Go maps *)

(** [None] is the nil map; [make] gives [Some ∅]. *)
Definition gomap : Type := option (gmap string Item).

Definition make_map : gomap := Some ∅.

(** [v, found := m[k]] *)
Definition map_index (m : gomap) (k : string) : option Item :=
  match m with
  | Some g => g !! k
  | None => None
  end.

(** [len(m)] *)
Definition map_len (m : gomap) : Z :=
  match m with
  | Some g => Z.of_nat (size g)
  | None => 0
  end.

(** [delete(m, k)]: no effect on a nil map. *)
Definition map_delete (m : gomap) (k : string) : gomap :=
  match m with
  | Some g => Some (delete k g)
  | None => None
  end.

(** [m[k] = v]: panics on a nil map. *)
Definition map_assign (m : gomap) (k : string) (v : Item) : outcome gomap :=
  match m with
  | Some g => Returns (Some (<[k := v]> g))
  | None => Panics "assignment to entry in nil map"
  end.

(** The entries [for k, v := range m] visits, in one of the orders Go may
    choose; the theorems that depend on an order hold for every
    permutation of it. *)
Definition map_range (m : gomap) : list (string * Item) :=
  match m with
  | Some g => map_to_list g
  | None => []
  end.

(** ** The cache *)

Record Cache : Type := mkCache {
  defaultExpiration : Duration;
  cleanupInterval : Duration;
  items : gomap
}.

Definition with_items (c : Cache) (m : gomap) : Cache :=
  {| defaultExpiration := defaultExpiration c;
     cleanupInterval := cleanupInterval c;
     items := m |}.

(** [Set]: [now] is the clock reading of line 46, taken only when the
    duration is positive; [created] the one of line 53. *)
Definition Cache_Set (now created : Time) (c : Cache)
    (key : string) (value : any) (duration : Duration) : outcome Cache :=
  let duration := if duration =? 0 then defaultExpiration c else duration in
  let expiration := if 0 <? duration then UnixNano (Add now duration) else 0 in
  match map_assign (items c) key
          {| Value := value; Created := created; Expiration := expiration |} with
  | Returns m => Returns (with_items c m)
  | Panics msg => Panics msg
  end.

(** [Get]: [now] is the clock reading of line 69. *)
Definition Cache_Get (now : Time) (c : Cache) (key : string) : any * bool :=
  match map_index (items c) key with
  | None => (nil_any, false)
  | Some item =>
      if 0 <? Expiration item then
        if Expiration item <? UnixNano now then (nil_any, false)
        else (Value item, true)
      else (Value item, true)
  end.

(** The loop of [GetAll] over the visited entries. *)
Definition GetAll_loop (visit : list (string * Item))
    (allItems : gmap string any) : gmap string any :=
  foldl (fun acc kv => <[kv.1 := Value kv.2]> acc) allItems visit.

Definition Cache_GetAll (c : Cache) : gmap string any :=
  GetAll_loop (map_range (items c)) ∅.

Definition Cache_Delete (c : Cache) (key : string) : Cache * error :=
  match map_index (items c) key with
  | None => (c, KeyNotFound)
  | Some _ => (with_items c (map_delete (items c) key), nil_error)
  end.

Definition Cache_Count (c : Cache) : Z := map_len (items c).

(** The loop of [expiredKeys]: [clock j] is the reading of [time.Now()]
    in the iteration that visits the [j]-th entry; [keys] grows by
    [append]. *)
Fixpoint expiredKeys_loop (clock : nat -> Time) (j : nat)
    (visit : list (string * Item)) (keys : list string) : list string :=
  match visit with
  | [] => keys
  | (k, i) :: rest =>
      expiredKeys_loop clock (S j) rest
        (if (Expiration i <? UnixNano (clock j)) && (0 <? Expiration i)
         then keys ++ [k] else keys)
  end.

Definition Cache_expiredKeys (clock : nat -> Time) (c : Cache) : list string :=
  expiredKeys_loop clock 0%nat (map_range (items c)) [].

Definition Cache_clearItems (c : Cache) (keys : list string) : Cache :=
  with_items c (foldl map_delete (items c) keys).

(** ** The background goroutine *)

(** Where the goroutine running [GC] stands. *)
Inductive gc_pc : Type :=
  | gc_waiting                        (* blocked on the timer, line 111 *)
  | gc_scanning                       (* past the nil test, line 116 *)
  | gc_clearing (keys : list string)  (* holding expired keys, line 118 *)
  | gc_returned.                      (* took the return of line 114 *)

(** Line 116: where the goroutine goes with the keys of a scan. *)
Definition after_scan (keys : list string) : gc_pc :=
  if (length keys =? 0)%nat then gc_waiting else gc_clearing keys.

(** One atomic step of [GC]; [None] when the goroutine has ended. *)
Definition GC_step (clock : nat -> Time) (c : Cache) (pc : gc_pc)
    : option (Cache * gc_pc) :=
  match pc with
  | gc_waiting =>
      match items c with
      | None => Some (c, gc_returned)
      | Some _ => Some (c, gc_scanning)
      end
  | gc_scanning => Some (c, after_scan (Cache_expiredKeys clock c))
  | gc_clearing keys => Some (Cache_clearItems c keys, gc_waiting)
  | gc_returned => None
  end.

(** Lines 116-119 run with no caller in between: one sweep. *)
Definition sweep (clock : nat -> Time) (c : Cache) : Cache :=
  let keys := Cache_expiredKeys clock c in
  if (length keys =? 0)%nat then c else Cache_clearItems c keys.

(** [StartGC]: the new goroutine starts at the head of the loop. *)
Definition Cache_StartGC : gc_pc := gc_waiting.

(** [New]: the cache, and the goroutine it started, if any. *)
Definition New (defaultExpiration cleanupInterval : Duration)
    : Cache * option gc_pc :=
  let cache := {| defaultExpiration := defaultExpiration;
                  cleanupInterval := cleanupInterval;
                  items := make_map |} in
  (cache, if 0 <? cleanupInterval then Some Cache_StartGC else None).

(** ** Callers *)

Inductive call : Type :=
  | call_Set (key : string) (value : any) (duration : Duration)
  | call_Get (key : string)
  | call_GetAll
  | call_Delete (key : string)
  | call_Count.

Inductive reply : Type :=
  | reply_Set
  | reply_Get (value : any) (found : bool)
  | reply_GetAll (allItems : gmap string any)
  | reply_Delete (err : error)
  | reply_Count (count : Z).

(** One call on the cache, under its lock. *)
Definition perform (now created : Time) (c : Cache) (op : call)
    : outcome (Cache * reply) :=
  match op with
  | call_Set key value duration =>
      match Cache_Set now created c key value duration with
      | Returns c' => Returns (c', reply_Set)
      | Panics msg => Panics msg
      end
  | call_Get key =>
      let '(value, found) := Cache_Get now c key in
      Returns (c, reply_Get value found)
  | call_GetAll => Returns (c, reply_GetAll (Cache_GetAll c))
  | call_Delete key =>
      let '(c', err) := Cache_Delete c key in
      Returns (c', reply_Delete err)
  | call_Count => Returns (c, reply_Count (Cache_Count c))
  end.

(** The error a reply carries; nil for the methods that return none. *)
Definition reply_error (r : reply) : error :=
  match r with
  | reply_Delete err => err
  | _ => nil_error
  end.

(** ** The running program: a cache, its goroutine and its callers *)

Definition system : Type := Cache * option gc_pc.

(** A caller completes a call, or the goroutine takes a step; its scan
    may visit the entries in any order. *)
Inductive step : system -> system -> Prop :=
  | step_call now created c g op c' r :
      perform now created c op = Returns (c', r) ->
      step (c, g) (c', g)
  | step_gc clock c pc c' pc' :
      GC_step clock c pc = Some (c', pc') ->
      step (c, Some pc) (c', Some pc')
  | step_gc_scan clock visit c :
      visit ≡ₚ map_range (items c) ->
      step (c, Some gc_scanning)
           (c, Some (after_scan (expiredKeys_loop clock 0 visit []))).

(** The states a program that built its cache with [New] can be in. *)
Inductive reachable (d ci : Duration) : system -> Prop :=
  | reachable_New : reachable d ci (New d ci)
  | reachable_step s s' : reachable d ci s -> step s s' -> reachable d ci s'.

(** ** Vocabulary of the properties *)

(** The entry is past its expiration at the instant [now]. *)
Definition expired (now : Time) (i : Item) : Prop :=
  0 < Expiration i /\ Expiration i < UnixNano now.

#[global] Instance expired_dec now i : Decision (expired now i) :=
  and_dec (Z.lt_dec 0 (Expiration i))
          (Z.lt_dec (Expiration i) (UnixNano now)).

(** The map of the cache is not nil. *)
Definition initialized (c : Cache) : Prop := items c <> None.

(** The duration [Set] works with once a zero is replaced by the default. *)
Definition resulting_duration (c : Cache) (duration : Duration) : Duration :=
  if decide (duration = 0) then defaultExpiration c else duration.

(** The entry [Set] stores, in those words. *)
Definition Set_entry (now created : Time) (c : Cache) (value : any)
    (duration : Duration) : Item :=
  {| Value := value; Created := created;
     Expiration :=
       if decide (0 < resulting_duration c duration)
       then UnixNano (Add now (resulting_duration c duration))
       else 0 |}.

(** [n] steps of the goroutine with no caller in between; [clocks m] is
    the clock the [m]-th step reads. *)
Fixpoint GC_steps (n : nat) (clocks : nat -> nat -> Time) (c : Cache)
    (pc : gc_pc) : option (Cache * gc_pc) :=
  match n with
  | O => Some (c, pc)
  | S n' =>
      match GC_step (clocks O) c pc with
      | Some (c', pc') => GC_steps n' (fun m => clocks (S m)) c' pc'
      | None => None
      end
  end.

End Cache.

Arguments Item : clear implicits.
Arguments Cache : clear implicits.
Arguments gomap : clear implicits.
Arguments any : clear implicits.
Arguments call : clear implicits.
Arguments reply : clear implicits.
Arguments system : clear implicits.

(** ** A concrete program *)

(** [time.Minute], in nanoseconds. *)
Definition Minute : Duration := 60 * 1000000000.

(** An instant of November 2023. *)
Definition sample_now : Time := 1700000000000000000.

(** The program of [main] after [New(5 * time.Minute, 1 * time.Minute)]:
    a cache holding integers, and its goroutine. *)
Definition main_system : system Z := New (5 * Minute) (1 * Minute).

Definition main_cache : Cache Z := main_system.1.

(** The entry [main] stores under "1" when the clock reads [sample_now]. *)
Definition sample_item : Item Z :=
  {| Value := Some 1; Created := sample_now;
     Expiration := sample_now + 1 * Minute |}.

(** [main_cache] after [Set("1", 1, 1 * time.Minute)] at [sample_now]. *)
Definition sample_cache : Cache Z :=
  {| defaultExpiration := 5 * Minute;
     cleanupInterval := 1 * Minute;
     items := Some {[ "1" := sample_item ]} |}.

(** ** Calls one after another, and the writers of [main] *)

(** Calls of [Set] made one after another on the same cache, each with
    the two clock readings it takes. *)
Fixpoint Set_all {T} (c : Cache T)
    (calls : list (Time * Time * (string * any T * Duration)))
    : outcome (Cache T) :=
  match calls with
  | [] => Returns c
  | (now, created, (key, value, duration)) :: rest =>
      match Cache_Set now created c key value duration with
      | Returns c' => Set_all c' rest
      | Panics msg => Panics msg
      end
  end.

(** [strconv.Itoa]: the decimal digits, with a sign for negatives. *)
Definition Itoa (i : Z) : string := pretty i.

(** The calls of the first goroutine of [main], lines 151-153. *)
Definition main_writer1 : list (string * any Z * Duration) :=
  (fun i => (Itoa i, Some i, i * Minute)) <$> seqZ 1 10.

(** The calls of the second goroutine of [main], lines 157-159. *)
Definition main_writer2 : list (string * any Z * Duration) :=
  (fun i => (Itoa i, Some i, (i - 10) * Minute)) <$> seqZ 11 10.

(** One run of the two goroutines: the first to its end, then the
    second, the clock standing at [sample_now]. *)
Definition main_schedule : list (Time * Time * (string * any Z * Duration)) :=
  (fun a => (sample_now, sample_now, a)) <$> (main_writer1 ++ main_writer2).

(** The zero value [Cache{}]: no durations, a nil map. *)
Definition zero_cache : Cache Z :=
  {| defaultExpiration := 0; cleanupInterval := 0; items := None |}.

(** A program that asked for no cleanup: [New(0, 0)]. *)
Definition quiet_system : system Z := New 0 0.


(** * Properties *)

(** ** Arithmetic of [int64] *)

Lemma wrap64_is_int64 z : is_int64 (wrap64 z).
Proof.
  unfold is_int64, wrap64, min_int64, max_int64.
  pose proof (Z.mod_pos_bound (z + 2 ^ 63) (2 ^ 64) ltac:(lia)). lia.
Qed.

Lemma wrap64_id z : is_int64 z -> wrap64 z = z.
Proof.
  unfold is_int64, wrap64, min_int64, max_int64. intros Hz.
  rewrite Z.mod_small by lia. lia.
Qed.

Lemma wrap64_add t d : wrap64 (t + d) = wrap64 (wrap64 t + d).
Proof.
  unfold wrap64. f_equal.
  replace ((t + 2 ^ 63) mod 2 ^ 64 - 2 ^ 63 + d + 2 ^ 63)
    with ((t + 2 ^ 63) mod 2 ^ 64 + d) by lia.
  rewrite Zplus_mod_idemp_l. f_equal. lia.
Qed.

(** A sum past [max_int64] comes back negative. *)
Lemma wrap64_overflow a d :
  is_int64 a -> is_int64 d -> max_int64 < a + d ->
  wrap64 (a + d) = a + d - 2 ^ 64.
Proof.
  unfold is_int64, wrap64, min_int64, max_int64. intros Ha Hd Hsum.
  replace (a + d + 2 ^ 63) with (a + d - 2 ^ 63 + 1 * 2 ^ 64) by lia.
  rewrite Z_mod_plus_full, Z.mod_small by lia. lia.
Qed.

Lemma UnixNano_id t : is_int64 t -> UnixNano t = t.
Proof. apply wrap64_id. Qed.

(** What [Set] stores as expiration for a positive duration. *)
Lemma UnixNano_Add now d :
  UnixNano now + d <= max_int64 -> 0 < d ->
  UnixNano (Add now d) = UnixNano now + d.
Proof.
  intros Hmax Hd. unfold UnixNano, Add. rewrite wrap64_add.
  apply wrap64_id. pose proof (wrap64_is_int64 now) as Hn.
  unfold is_int64 in *. unfold UnixNano in Hmax. lia.
Qed.

Section Properties.

Context {T : Type}.
Implicit Types (c : Cache T) (m : gomap T) (it : Item T) (key k : string).
Implicit Types (now created : Time) (value : any T) (duration d : Duration).
Implicit Types (clock : nat -> Time) (keys : list string).

(** ** Go maps *)

Lemma map_index_assign m k v :
  m <> None ->
  exists m', map_assign m k v = Returns m' /\ m' <> None
    /\ map_index m' k = Some v
    /\ forall k', k' <> k -> map_index m' k' = map_index m k'.
Proof.
  destruct m as [g|]; [intros _ | done].
  eexists. split; [reflexivity|]. split; [done|]. simpl. split.
  - apply lookup_insert_eq.
  - intros k' Hk. by apply lookup_insert_ne.
Qed.

Lemma map_index_delete m k k' :
  map_index (map_delete m k) k' =
  if decide (k' = k) then None else map_index m k'.
Proof.
  destruct m as [g|]; simpl; [|by case_decide].
  case_decide as Hk.
  - subst. apply lookup_delete_eq.
  - by apply lookup_delete_ne.
Qed.

Lemma map_delete_nil m k : map_delete m k = None <-> m = None.
Proof. by destruct m. Qed.

Lemma map_index_range m k it :
  map_index m k = Some it <-> (k, it) ∈ map_range m.
Proof.
  destruct m as [g|]; simpl.
  - by rewrite elem_of_map_to_list.
  - split; [done | by intros ?%elem_of_nil].
Qed.

Lemma map_range_NoDup m : NoDup (map_range m).*1.
Proof.
  destruct m as [g|]; simpl; [apply NoDup_fst_map_to_list | constructor].
Qed.

(** ** Set *)

Lemma Set_unfold now created c key value duration :
  Cache_Set now created c key value duration =
  match map_assign (items c) key
          {| Value := value; Created := created;
             Expiration :=
               if decide (0 < resulting_duration c duration)
               then UnixNano (Add now (resulting_duration c duration))
               else 0 |} with
  | Returns m => Returns (with_items c m)
  | Panics msg => Panics msg
  end.
Proof.
  unfold Cache_Set, resulting_duration.
  assert (Heq : (if duration =? 0 then defaultExpiration c else duration) =
                (if decide (duration = 0) then defaultExpiration c else duration)).
  { case_decide as Hd; [subst; reflexivity|].
    destruct (Z.eqb_spec duration 0); [done | reflexivity]. }
  rewrite Heq. clear Heq.
  set (d' := if decide (duration = 0) then defaultExpiration c else duration).
  assert (Hexp : (if 0 <? d' then UnixNano (Add now d') else 0) =
                 (if decide (0 < d') then UnixNano (Add now d') else 0)).
  { case_decide as Hd; destruct (Z.ltb_spec 0 d'); done || lia. }
  by rewrite Hexp.
Qed.

Lemma Set_returns now created c key value duration :
  initialized c ->
  exists g,
    items c = Some g
    /\ Cache_Set now created c key value duration =
       Returns (with_items c
                  (Some (<[key := Set_entry now created c value duration]> g))).
Proof.
  intros Hinit. rewrite Set_unfold. fold (Set_entry now created c value duration).
  destruct (items c) as [g|] eqn:Hg; [|done]. by exists g.
Qed.

(** C1, as the code has it: on a cache whose map is initialized, [Set]
    returns without panicking and leaves under [key] an entry with the
    given value, whatever was there before, and touches no other key.  A
    duration of 0 is replaced by the default.  When the resulting duration
    is positive and the timestamp now + duration fits a signed 64-bit
    integer, the entry expires at exactly that timestamp; when the
    resulting duration is zero or negative the expiration is 0, the mark
    of an entry that never expires. *)
Theorem Set_stores_entry now created c key value duration :
  initialized c ->
  exists c' it,
    Cache_Set now created c key value duration = Returns c'
    /\ initialized c'
    /\ defaultExpiration c' = defaultExpiration c
    /\ cleanupInterval c' = cleanupInterval c
    /\ map_index (items c') key = Some it
    /\ Value it = value
    /\ Created it = created
    /\ (forall k, k <> key -> map_index (items c') k = map_index (items c) k)
    /\ (0 < resulting_duration c duration ->
        UnixNano now + resulting_duration c duration <= max_int64 ->
        Expiration it = UnixNano now + resulting_duration c duration)
    /\ (resulting_duration c duration <= 0 -> Expiration it = 0).
Proof.
  intros Hinit.
  destruct (Set_returns now created c key value duration Hinit)
    as (g & Hg & ->).
  eexists _, (Set_entry now created c value duration).
  split; [reflexivity|]. simpl. repeat split; try done.
  - apply lookup_insert_eq.
  - intros k Hk. rewrite Hg. simpl. by apply lookup_insert_ne.
  - intros Hpos Hfit. rewrite decide_True by done. by apply UnixNano_Add.
  - intros Hneg. rewrite decide_False by lia. done.
Qed.

(** The stored expiration for a positive duration, in every case: the
    [int64] the runtime keeps of now + duration. *)
Lemma Set_expiration_wraps now created c key value duration c' it :
  Cache_Set now created c key value duration = Returns c' ->
  map_index (items c') key = Some it ->
  0 < resulting_duration c duration ->
  Expiration it = wrap64 (UnixNano now + resulting_duration c duration).
Proof.
  rewrite Set_unfold. destruct (items c) as [g|] eqn:Hg; [|done].
  simpl. intros [= <-]. simpl. rewrite lookup_insert_eq. intros [= <-] Hpos.
  simpl. rewrite decide_True by done. apply wrap64_add.
Qed.

(** ** Get *)

Lemma Get_decide now c key :
  Cache_Get now c key =
    match map_index (items c) key with
    | None => (nil_any, false)
    | Some it =>
        if decide (0 < Expiration it /\ UnixNano now > Expiration it)
        then (nil_any, false)
        else (Value it, true)
    end.
Proof.
  unfold Cache_Get. destruct (map_index (items c) key) as [it|]; [|done].
  destruct (Z.ltb_spec 0 (Expiration it)) as [Hpos|Hpos].
  - destruct (Z.ltb_spec (Expiration it) (UnixNano now)) as [Hlt|Hlt].
    + rewrite decide_True; [done | lia].
    + rewrite decide_False; [done | lia].
  - rewrite decide_False; [done | lia].
Qed.

Lemma Get_expired now c key it :
  map_index (items c) key = Some it ->
  Cache_Get now c key =
  if decide (expired now it) then (nil_any, false) else (Value it, true).
Proof.
  intros Hit. rewrite Get_decide, Hit.
  unfold expired. repeat case_decide; done || lia.
Qed.

(** C2: [Get] answers (nil, false) for a key that is not in the map, and
    for a key whose entry has a positive expiration that the current time
    has passed; for any other entry it answers the stored value with
    true.  A [Get] leaves the cache as it was. *)
Theorem Get_spec now c key :
  Cache_Get now c key =
    match map_index (items c) key with
    | None => (nil_any, false)
    | Some it =>
        if decide (0 < Expiration it /\ UnixNano now > Expiration it)
        then (nil_any, false)
        else (Value it, true)
    end
  /\ forall created,
       perform now created c (call_Get key) =
       Returns (c, reply_Get (Cache_Get now c key).1 (Cache_Get now c key).2).
Proof.
  split; [apply Get_decide|].
  intros created. simpl. by destruct (Cache_Get now c key).
Qed.

(** C6: on an initialized cache and for every duration an [int64] can
    hold (zero and negative ones too), a [Get] of the key at the instant
    of the [Set], with nothing in between, answers the value with true. *)
Theorem Get_after_Set now created c key value duration :
  initialized c ->
  is_int64 duration ->
  is_int64 (defaultExpiration c) ->
  exists c',
    Cache_Set now created c key value duration = Returns c'
    /\ Cache_Get now c' key = (value, true).
Proof.
  intros Hinit Hd Hdef.
  destruct (Set_returns now created c key value duration Hinit)
    as (g & Hg & HSet).
  eexists. split; [exact HSet|].
  set (it := Set_entry now created c value duration).
  assert (Hit : map_index (items (with_items c (Some (<[key := it]> g)))) key
                = Some it) by apply lookup_insert_eq.
  rewrite (Get_expired _ _ _ _ Hit). rewrite decide_False; [done|].
  intros [Hpos Hlt].
  destruct (decide (0 < resulting_duration c duration)) as [Hrd|Hrd]; cycle 1.
  { unfold it in Hpos. simpl in Hpos. rewrite decide_False in Hpos by done. lia. }
  rewrite (Set_expiration_wraps _ _ _ _ _ _ _ _ HSet Hit Hrd) in Hpos, Hlt.
  assert (Hrd64 : is_int64 (resulting_duration c duration)).
  { unfold resulting_duration. by case_decide. }
  pose proof (wrap64_is_int64 now) as Hnow. fold (UnixNano now) in Hnow.
  destruct (decide (UnixNano now + resulting_duration c duration <= max_int64))
    as [Hfit|Hover].
  - rewrite wrap64_id in Hlt; [lia|].
    unfold is_int64, min_int64, max_int64 in *. lia.
  - rewrite wrap64_overflow in Hpos by (done || lia).
    unfold is_int64, min_int64, max_int64 in *. lia.
Qed.

(** C7: when the default expiration of the cache is some d > 0, [Set] with
    duration 0 and [Set] with duration d, at the same clock readings, have
    the same outcome: the same cache, holding under the key the same
    entry, which expires at the [int64] timestamp of now + d. *)
Theorem Set_zero_is_default now created c key value d :
  defaultExpiration c = d ->
  0 < d ->
  Cache_Set now created c key value 0 = Cache_Set now created c key value d
  /\ (initialized c ->
      exists c',
        Cache_Set now created c key value 0 = Returns c'
        /\ map_index (items c') key =
             Some {| Value := value; Created := created;
                     Expiration := UnixNano (Add now d) |}).
Proof.
  intros Hdef Hd.
  assert (Hrd0 : resulting_duration c 0 = d) by done.
  assert (Hrd : resulting_duration c d = d).
  { unfold resulting_duration. rewrite decide_False; [done | lia]. }
  rewrite !Set_unfold, Hrd0, Hrd. split; [done|].
  intros Hinit. rewrite decide_True by done.
  destruct (items c) as [g|] eqn:Hg; [|done].
  eexists. split; [reflexivity|]. simpl. apply lookup_insert_eq.
Qed.

(** ** Delete *)

Lemma Delete_absent c key :
  map_index (items c) key = None -> Cache_Delete c key = (c, KeyNotFound).
Proof. intros Hk. unfold Cache_Delete. by rewrite Hk. Qed.

Lemma Delete_present c key it :
  map_index (items c) key = Some it ->
  Cache_Delete c key = (with_items c (map_delete (items c) key), nil_error).
Proof. intros Hk. unfold Cache_Delete. by rewrite Hk. Qed.

Lemma perform_returns now created c (op : call T) :
  initialized c -> exists c' r, perform now created c op = Returns (c', r).
Proof.
  intros Hinit. destruct op as [key value duration|key| |key|]; simpl.
  - destruct (Set_returns now created c key value duration Hinit)
      as (g & _ & ->). by eexists _, _.
  - destruct (Cache_Get now c key). by eexists _, _.
  - by eexists _, _.
  - destruct (Cache_Delete c key). by eexists _, _.
  - by eexists _, _.
Qed.

Lemma perform_error now created c (op : call T) c' r :
  perform now created c op = Returns (c', r) ->
  reply_error r = nil_error
  \/ reply_error r = KeyNotFound
     /\ exists key, op = call_Delete key /\ map_index (items c) key = None.
Proof.
  destruct op as [key value duration|key| |key|]; simpl.
  - destruct (Cache_Set _ _ _ _ _ _); [|done]. intros [= <- <-]. by left.
  - destruct (Cache_Get now c key). intros [= <- <-]. by left.
  - intros [= <- <-]. by left.
  - unfold Cache_Delete.
    destruct (map_index (items c) key) as [it|] eqn:Hk; intros [= <- <-].
    + by left.
    + right. split; [done|]. by exists key.
  - intros [= <- <-]. by left.
Qed.

(** C5: [Delete] returns the error "Key not found" exactly when the key
    is not in the map, and then leaves the cache as it was; for a key that
    is in the map it returns the nil error and removes that entry and no
    other.  No call on the cache returns any other error, and on an
    initialized cache no call panics. *)
Theorem Delete_spec c key :
  ((Cache_Delete c key).2 = KeyNotFound <-> map_index (items c) key = None)
  /\ (map_index (items c) key = None -> Cache_Delete c key = (c, KeyNotFound))
  /\ (forall it, map_index (items c) key = Some it ->
        (Cache_Delete c key).2 = nil_error
        /\ defaultExpiration (Cache_Delete c key).1 = defaultExpiration c
        /\ cleanupInterval (Cache_Delete c key).1 = cleanupInterval c
        /\ forall k, map_index (items (Cache_Delete c key).1) k =
                     if decide (k = key) then None else map_index (items c) k)
  /\ (forall now created (op : call T) c' r,
        perform now created c op = Returns (c', r) ->
        reply_error r = nil_error
        \/ reply_error r = KeyNotFound
           /\ exists key', op = call_Delete key'
                /\ map_index (items c) key' = None)
  /\ (initialized c ->
      forall now created (op : call T),
        exists c' r, perform now created c op = Returns (c', r)).
Proof.
  split; [|split; [|split; [|split]]].
  - destruct (map_index (items c) key) as [it|] eqn:Hk.
    + rewrite (Delete_present _ _ _ Hk). simpl. by split.
    + by rewrite (Delete_absent _ _ Hk).
  - apply Delete_absent.
  - intros it Hk. rewrite (Delete_present _ _ _ Hk). simpl.
    repeat split. intros k. apply map_index_delete.
  - intros now created op c' r. apply perform_error.
  - intros Hinit now created op. by apply perform_returns.
Qed.

(** ** GetAll *)

Lemma GetAll_loop_lookup (visit : list (string * Item T)) acc k :
  NoDup visit.*1 ->
  GetAll_loop visit acc !! k =
  match (list_to_map visit : gmap string (Item T)) !! k with
  | Some it => Some (Value it)
  | None => acc !! k
  end.
Proof.
  revert acc. induction visit as [|[k0 i0] visit IH]; intros acc Hnd; [done|].
  rewrite fmap_cons in Hnd. apply NoDup_cons in Hnd as [Hk0 Hnd].
  replace (GetAll_loop ((k0, i0) :: visit) acc)
    with (GetAll_loop visit (<[k0 := Value i0]> acc)) by reflexivity.
  rewrite (IH _ Hnd), list_to_map_cons.
  destruct (decide (k = k0)) as [->|Hne].
  - rewrite (not_elem_of_list_to_map_1 _ _ Hk0), !lookup_insert_eq. done.
  - rewrite !lookup_insert_ne by done. done.
Qed.

Lemma GetAll_loop_range m (visit : list (string * Item T)) k :
  visit ≡ₚ map_range m ->
  GetAll_loop visit ∅ !! k = Value <$> map_index m k.
Proof.
  intros Hperm.
  assert (Hnd : NoDup visit.*1).
  { rewrite Hperm. apply map_range_NoDup. }
  rewrite (GetAll_loop_lookup _ _ _ Hnd), lookup_empty.
  assert (Hmap : (list_to_map visit : gmap string (Item T)) !! k = map_index m k).
  { rewrite (list_to_map_proper visit (map_range m) Hnd Hperm).
    destruct m as [g|]; simpl; [by rewrite list_to_map_to_list | done]. }
  rewrite Hmap. by destruct (map_index m k).
Qed.

(** C4: the mapping [GetAll] returns is built from an empty one and
    binds every key of the map, and no other, to the value stored under
    it, in whatever order the entries are visited.  Expiration plays no
    part: an entry that [Get] hides as expired is in the result with its
    stored value.  The cache is left as it was. *)
Theorem GetAll_spec c :
  (forall k, Cache_GetAll c !! k = Value <$> map_index (items c) k)
  /\ (forall visit, visit ≡ₚ map_range (items c) ->
        GetAll_loop visit ∅ = Cache_GetAll c)
  /\ (forall now k it,
        map_index (items c) k = Some it -> expired now it ->
        Cache_Get now c k = (nil_any, false)
        /\ Cache_GetAll c !! k = Some (Value it))
  /\ (forall now created,
        perform now created c call_GetAll =
        Returns (c, reply_GetAll (Cache_GetAll c))).
Proof.
  assert (Hall : forall k, Cache_GetAll c !! k = Value <$> map_index (items c) k).
  { intros k. by apply GetAll_loop_range. }
  split; [done|]. split; [|split; [|done]].
  - intros visit Hperm. apply map_eq. intros k.
    rewrite Hall. by apply GetAll_loop_range.
  - intros now k it Hk Hexp. split.
    + rewrite (Get_expired _ _ _ _ Hk). by rewrite decide_True.
    + by rewrite Hall, Hk.
Qed.

(** ** Count *)

Lemma Count_length c : Cache_Count c = Z.of_nat (length (map_range (items c))).
Proof.
  unfold Cache_Count. destruct (items c) as [g|]; simpl; [|done].
  by rewrite length_map_to_list.
Qed.

Lemma length_filter_bool {A} (f : A -> bool) (l : list A) :
  length l =
  (length (filter (fun x => f x = true) l)
   + length (filter (fun x => f x = false) l))%nat.
Proof.
  induction l as [|x l IH]; [done|].
  rewrite !filter_cons.
  destruct (f x); repeat case_decide; try done; simpl in *; lia.
Qed.

(** C8: [Count] is the number of entries in the map.  At every instant
    it is the number of entries [Get] still returns plus the number of
    entries [Get] hides as expired, so expired entries are counted until
    they are removed; no clock reading enters the result. *)
Theorem Count_spec c :
  Cache_Count c = map_len (items c)
  /\ Cache_Count c = Z.of_nat (length (map_range (items c)))
  /\ (forall now,
        Cache_Count c =
        Z.of_nat (length (filter (fun kv => (Cache_Get now c kv.1).2 = true)
                            (map_range (items c))))
        + Z.of_nat (length (filter (fun kv => (Cache_Get now c kv.1).2 = false)
                              (map_range (items c)))))
  /\ (forall now created now' created',
        perform now created c call_Count = Returns (c, reply_Count (Cache_Count c))
        /\ perform now created c call_Count = perform now' created' c call_Count).
Proof.
  split; [done|]. split; [apply Count_length|]. split; [|done].
  intros now. rewrite Count_length.
  rewrite (length_filter_bool (fun kv => (Cache_Get now c kv.1).2)). lia.
Qed.

(** ** The sweep: expiredKeys and clearItems *)

Lemma clear_index (keys : list string) m k :
  map_index (foldl map_delete m keys) k =
  if decide (k ∈ keys) then None else map_index m k.
Proof.
  revert m. induction keys as [|k0 keys IH]; intros m; cbn [foldl].
  - case_decide as Hin; [by apply elem_of_nil in Hin | done].
  - rewrite IH, map_index_delete.
    destruct (decide (k ∈ k0 :: keys)) as [Hin|Hin].
    + apply elem_of_cons in Hin as [->|Hin].
      * destruct (decide (k0 ∈ keys)); [done|]. by rewrite decide_True.
      * by rewrite decide_True.
    + rewrite decide_False by (intros ?; apply Hin; by right).
      rewrite decide_False by (intros ->; apply Hin; by left). done.
Qed.

Lemma clear_nil (keys : list string) m :
  foldl map_delete m keys = None <-> m = None.
Proof.
  revert m. induction keys as [|k0 keys IH]; intros m; simpl; [done|].
  by rewrite IH, map_delete_nil.
Qed.

Lemma clearItems_nothing c : Cache_clearItems c [] = c.
Proof. by destruct c. Qed.

Lemma sweep_clearItems clock c :
  sweep clock c = Cache_clearItems c (Cache_expiredKeys clock c).
Proof.
  unfold sweep. destruct (Cache_expiredKeys clock c) as [|k keys]; simpl; [|done].
  by rewrite clearItems_nothing.
Qed.

(** The test of line 128. *)
Lemma expired_test clock j it :
  (Expiration it <? UnixNano (clock j)) && (0 <? Expiration it) = true
  <-> expired (clock j) it.
Proof.
  unfold expired. rewrite andb_true_iff, Z.ltb_lt, Z.ltb_lt. tauto.
Qed.

Lemma expiredKeys_loop_elem clock j (visit : list (string * Item T)) keys k :
  k ∈ expiredKeys_loop clock j visit keys <->
  k ∈ keys
  \/ exists n it, visit !! n = Some (k, it) /\ expired (clock (j + n)%nat) it.
Proof.
  revert j keys. induction visit as [|[k0 i0] visit IH]; intros j keys; simpl.
  - split; [by left|]. intros [?|(n & it & Hn & _)]; [done|].
    by rewrite lookup_nil in Hn.
  - rewrite IH. clear IH.
    pose proof (expired_test clock j i0) as Htest.
    destruct ((Expiration i0 <? UnixNano (clock j)) && (0 <? Expiration i0)).
    + rewrite elem_of_app, list_elem_of_singleton. split.
      * intros [[Hin| ->]|(n & it & Hn & Hexp)].
        -- by left.
        -- right. exists 0%nat, i0. rewrite Nat.add_0_r. split; [done|].
           by apply Htest.
        -- right. exists (S n), it. by rewrite Nat.add_succ_r.
      * intros [Hin|(n & it & Hn & Hexp)]; [by left; left|].
        destruct n as [|n]; simpl in Hn.
        -- injection Hn as -> ->. by left; right.
        -- right. exists n, it. by rewrite Nat.add_succ_r in Hexp.
    + split.
      * intros [Hin|(n & it & Hn & Hexp)]; [by left|].
        right. exists (S n), it. by rewrite Nat.add_succ_r.
      * intros [Hin|(n & it & Hn & Hexp)]; [by left|].
        destruct n as [|n]; simpl in Hn.
        -- injection Hn as -> ->. rewrite Nat.add_0_r in Hexp.
           apply Htest in Hexp. done.
        -- right. exists n, it. by rewrite Nat.add_succ_r in Hexp.
Qed.

(** In a visit that meets every key once, the key met at position [j] is
    collected exactly when its entry is expired at the reading [clock j]. *)
Lemma expiredKeys_loop_at clock (visit : list (string * Item T)) j k it :
  NoDup visit.*1 ->
  visit !! j = Some (k, it) ->
  k ∈ expiredKeys_loop clock 0 visit [] <-> expired (clock j) it.
Proof.
  intros Hnd Hj. rewrite expiredKeys_loop_elem. split.
  - intros [Hin|(n & it' & Hn & Hexp)]; [by apply elem_of_nil in Hin|].
    assert (n = j) as ->.
    { eapply (NoDup_lookup _ _ _ k Hnd); rewrite list_lookup_fmap.
      - by rewrite Hn.
      - by rewrite Hj. }
    rewrite Hj in Hn. by injection Hn as <-.
  - intros Hexp. right. by exists j, it.
Qed.

Lemma expiredKeys_loop_absent clock (visit : list (string * Item T)) k :
  (forall it, (k, it) ∉ visit) ->
  k ∉ expiredKeys_loop clock 0 visit [].
Proof.
  intros Habs. rewrite expiredKeys_loop_elem.
  intros [Hin|(n & it & Hn & _)]; [by apply elem_of_nil in Hin|].
  apply (Habs it). by eapply list_elem_of_lookup_2.
Qed.

(** What clearing the keys collected over any visit of the map leaves. *)
Lemma clear_collected clock c (visit : list (string * Item T)) :
  visit ≡ₚ map_range (items c) ->
  let c' := Cache_clearItems c (expiredKeys_loop clock 0 visit []) in
  (forall j k it, visit !! j = Some (k, it) ->
     map_index (items c') k =
     if decide (expired (clock j) it) then None else Some it)
  /\ (forall k, map_index (items c) k = None -> map_index (items c') k = None).
Proof.
  intros Hperm c'.
  assert (Hnd : NoDup visit.*1).
  { rewrite Hperm. apply map_range_NoDup. }
  split.
  - intros j k it Hj. unfold c'. simpl. rewrite clear_index.
    pose proof (expiredKeys_loop_at clock visit j k it Hnd Hj) as Hiff.
    assert (Hk : map_index (items c) k = Some it).
    { apply map_index_range. rewrite <- Hperm.
      by eapply list_elem_of_lookup_2. }
    destruct (decide (expired (clock j) it)) as [Hexp|Hexp].
    + rewrite decide_True; [done | by apply Hiff].
    + rewrite decide_False; [done | by rewrite Hiff].
  - intros k Hk. unfold c'. simpl. rewrite clear_index, Hk. by case_decide.
Qed.

(** C3: one sweep takes out of the map exactly the entries that, at the
    clock reading taken when the scan visits them, have a positive
    expiration below that reading, and leaves every other entry, all those
    with expiration 0 among them, as it was; so it does in whatever order
    the scan visits the entries.  When the whole scan reads one instant,
    the map after the sweep is the map before without the entries expired
    at that instant. *)
Theorem sweep_removes_exactly_expired clock c :
  defaultExpiration (sweep clock c) = defaultExpiration c
  /\ cleanupInterval (sweep clock c) = cleanupInterval c
  /\ (items (sweep clock c) = None <-> items c = None)
  /\ (forall j k it, map_range (items c) !! j = Some (k, it) ->
        map_index (items (sweep clock c)) k =
        if decide (0 < Expiration it /\ Expiration it < UnixNano (clock j))
        then None else Some it)
  /\ (forall k, map_index (items c) k = None ->
        map_index (items (sweep clock c)) k = None)
  /\ (forall visit, visit ≡ₚ map_range (items c) ->
      forall j k it, visit !! j = Some (k, it) ->
        map_index
          (items (Cache_clearItems c (expiredKeys_loop clock 0 visit []))) k =
        if decide (0 < Expiration it /\ Expiration it < UnixNano (clock j))
        then None else Some it)
  /\ (forall now, (forall j, clock j = now) ->
      forall k,
        map_index (items (sweep clock c)) k =
        match map_index (items c) k with
        | Some it =>
            if decide (0 < Expiration it /\ Expiration it < UnixNano now)
            then None else Some it
        | None => None
        end).
Proof.
  rewrite sweep_clearItems. unfold Cache_expiredKeys.
  destruct (clear_collected clock c (map_range (items c)) (reflexivity _))
    as [Hin Hout].
  split; [done|]. split; [done|]. split; [apply clear_nil|].
  split; [exact Hin|]. split; [exact Hout|]. split.
  - intros visit Hperm. by apply clear_collected.
  - intros now Hclock k.
    destruct (map_index (items c) k) as [it|] eqn:Hk; [|by apply Hout].
    apply map_index_range, list_elem_of_lookup_1 in Hk as [j Hj].
    rewrite (Hin j k it Hj), Hclock. done.
Qed.

(** ** The comparison with the expiration *)

(** C10: for an entry with a positive expiration, the comparison with
    the clock is strict on both paths.  At the instant whose timestamp is
    the expiration itself, [Get] still answers the value with true and a
    scan does not collect the key; [Get] hides the entry, and a scan
    collects its key, exactly when the timestamp read is strictly greater
    than the expiration. *)
Theorem expiration_is_strict now c key it :
  map_index (items c) key = Some it ->
  0 < Expiration it ->
  (UnixNano now = Expiration it ->
     Cache_Get now c key = (Value it, true)
     /\ key ∉ Cache_expiredKeys (fun _ => now) c)
  /\ ((Cache_Get now c key).2 = false <-> UnixNano now > Expiration it)
  /\ (key ∈ Cache_expiredKeys (fun _ => now) c <-> UnixNano now > Expiration it)
  /\ (forall clock j, map_range (items c) !! j = Some (key, it) ->
        key ∈ Cache_expiredKeys clock c <-> UnixNano (clock j) > Expiration it).
Proof.
  intros Hk Hpos.
  assert (Hscan : forall clock j, map_range (items c) !! j = Some (key, it) ->
            key ∈ Cache_expiredKeys clock c <-> UnixNano (clock j) > Expiration it).
  { intros clock j Hj. unfold Cache_expiredKeys.
    rewrite (expiredKeys_loop_at clock _ j key it (map_range_NoDup _) Hj).
    unfold expired. lia. }
  assert (Hconst : key ∈ Cache_expiredKeys (fun _ => now) c
                   <-> UnixNano now > Expiration it).
  { pose proof Hk as Hin. apply map_index_range, list_elem_of_lookup_1 in Hin as [j Hj].
    apply (Hscan (fun _ => now) j Hj). }
  assert (HGet : Cache_Get now c key =
                 if decide (expired now it) then (nil_any, false)
                 else (Value it, true)) by by apply Get_expired.
  split; [|split; [|split]]; [| |done|done].
  - intros Heq. split.
    + rewrite HGet, decide_False; [done|]. unfold expired. lia.
    + rewrite Hconst. lia.
  - rewrite HGet. case_decide as Hexp; unfold expired in Hexp; simpl.
    + split; [lia | done].
    + split; [done | lia].
Qed.

(** ** The goroutine never returns *)

Lemma perform_initialized now created c (op : call T) c' r :
  perform now created c op = Returns (c', r) ->
  initialized c -> initialized c'.
Proof.
  unfold initialized.
  destruct op as [key value duration|key| |key|]; simpl.
  - unfold Cache_Set. destruct (items c) as [g|]; [|done]. simpl.
    by intros [= <- <-].
  - destruct (Cache_Get now c key). by intros [= <- <-].
  - by intros [= <- <-].
  - unfold Cache_Delete. destruct (map_index (items c) key);
      intros [= <- <-]; [|done]. simpl. by rewrite map_delete_nil.
  - by intros [= <- <-].
Qed.

Lemma after_scan_running keys : after_scan keys <> gc_returned.
Proof. unfold after_scan. by destruct (length keys =? 0)%nat. Qed.

Lemma GC_step_progress clock c pc :
  initialized c -> pc <> gc_returned ->
  exists c' pc',
    GC_step clock c pc = Some (c', pc')
    /\ initialized c' /\ pc' <> gc_returned.
Proof.
  unfold initialized. intros Hinit Hpc.
  destruct pc as [| |keys|]; simpl; [| | |done].
  - destruct (items c) eqn:Hg; [|done]. exists c, gc_scanning.
    by rewrite Hg.
  - eexists _, _. split; [done|]. split; [done|]. apply after_scan_running.
  - eexists _, _. split; [done|]. split; [|done]. simpl. by rewrite clear_nil.
Qed.

Lemma GC_steps_progress n clocks c pc :
  initialized c -> pc <> gc_returned ->
  exists c' pc',
    GC_steps n clocks c pc = Some (c', pc')
    /\ initialized c' /\ pc' <> gc_returned.
Proof.
  revert clocks c pc. induction n as [|n IH]; intros clocks c pc Hinit Hpc.
  - by exists c, pc.
  - simpl.
    destruct (GC_step_progress (clocks 0%nat) c pc Hinit Hpc)
      as (c1 & pc1 & -> & Hinit1 & Hpc1).
    by apply IH.
Qed.

(** From the head of the loop, left to itself, the goroutine is back at
    the head after one sweep. *)
Lemma GC_cycle clock c :
  initialized c ->
  exists n, (0 < n)%nat
    /\ GC_steps n (fun _ => clock) c gc_waiting = Some (sweep clock c, gc_waiting).
Proof.
  unfold initialized. intros Hinit. unfold sweep.
  destruct (items c) as [g|] eqn:Hg; [|done].
  destruct (length (Cache_expiredKeys clock c) =? 0)%nat eqn:Hlen.
  - exists 2%nat. split; [lia|].
    cbn [GC_steps GC_step]. rewrite Hg. cbn [GC_steps GC_step].
    unfold after_scan. by rewrite Hlen.
  - exists 3%nat. split; [lia|].
    cbn [GC_steps GC_step]. rewrite Hg. cbn [GC_steps GC_step].
    unfold after_scan. by rewrite Hlen.
Qed.

Lemma GC_step_initialized clock c pc c' pc' :
  GC_step clock c pc = Some (c', pc') -> initialized c -> initialized c'.
Proof.
  unfold initialized. destruct pc as [| |keys|]; simpl; [| | |done].
  - intros Hstep Hinit.
    destruct (items c) eqn:Hg; injection Hstep as <- <-; congruence.
  - by intros [= <- <-].
  - intros [= <- <-]. simpl. by rewrite clear_nil.
Qed.

(** [New] makes the map and nothing ever replaces it by nil. *)
Lemma reachable_initialized d ci (s : system T) :
  reachable d ci s -> initialized s.1.
Proof.
  intros Hreach. induction Hreach as [|s s' _ IH Hstep]; [done|].
  destruct Hstep as [now created c g op c' r Hop|clock c pc0 c' pc' Hgc
                    |clock visit c Hvisit]; simpl in *.
  - by eapply perform_initialized.
  - by eapply GC_step_initialized.
  - done.
Qed.

(** The invariant of the running program. *)
Lemma reachable_invariant d ci (s : system T) :
  0 < ci -> reachable d ci s ->
  initialized s.1 /\ exists pc, s.2 = Some pc /\ pc <> gc_returned.
Proof.
  intros Hci Hreach. split; [by eapply reachable_initialized|].
  induction Hreach as [|s s' Hreach IH Hstep].
  - unfold New. simpl.
    destruct (Z.ltb_spec 0 ci); [|lia]. by exists Cache_StartGC.
  - destruct IH as (pc & Hpc & Hne).
    pose proof (reachable_initialized d ci s Hreach) as Hinit.
    destruct Hstep as [now created c g op c' r Hop|clock c pc0 c' pc' Hgc
                      |clock visit c Hvisit]; simpl in *.
    + by exists pc.
    + injection Hpc as <-.
      destruct (GC_step_progress clock c pc0 Hinit Hne)
        as (c1 & pc1 & Hgc1 & Hinit1 & Hpc1).
      rewrite Hgc in Hgc1. injection Hgc1 as <- <-.
      by exists pc'.
    + eexists. split; [done|]. apply after_scan_running.
Qed.

(** C9: in a program whose cache was built by [New] with a positive
    cleanup interval, whatever the callers and the goroutine have done so
    far, the map of the cache is not nil and the goroutine is alive and
    has not returned; its next step is always possible, does not take the
    return on a nil map, and leads to a state of the same kind, so that
    any number of further steps keeps it running; from the head of its
    loop it completes one more sweep and is back at the head. *)
Theorem GC_never_returns d ci (s : system T) :
  0 < ci ->
  reachable d ci s ->
  initialized s.1
  /\ exists pc,
       s.2 = Some pc
       /\ pc <> gc_returned
       /\ (forall clock, exists c' pc',
             GC_step clock s.1 pc = Some (c', pc')
             /\ pc' <> gc_returned
             /\ reachable d ci (c', Some pc'))
       /\ (forall n clocks, exists c' pc',
             GC_steps n clocks s.1 pc = Some (c', pc')
             /\ pc' <> gc_returned)
       /\ (pc = gc_waiting ->
           forall clock, exists n, (0 < n)%nat
             /\ GC_steps n (fun _ => clock) s.1 gc_waiting =
                Some (sweep clock s.1, gc_waiting)).
Proof.
  intros Hci Hreach.
  destruct (reachable_invariant d ci s Hci Hreach) as (Hinit & pc & Hpc & Hne).
  split; [done|]. exists pc. split; [done|]. split; [done|].
  split; [|split].
  - intros clock.
    destruct (GC_step_progress clock s.1 pc Hinit Hne)
      as (c' & pc' & Hgc & _ & Hpc').
    exists c', pc'. split; [done|]. split; [done|].
    apply (reachable_step d ci s); [done|].
    destruct s as [c g]. simpl in *. subst g. by eapply step_gc.
  - intros n clocks.
    destruct (GC_steps_progress n clocks s.1 pc Hinit Hne)
      as (c' & pc' & Hgc & _ & Hpc').
    by exists c', pc'.
  - intros _ clock. by apply GC_cycle.
Qed.

End Properties.

(** * How the operations compose *)

Section Composition.

Context {T : Type}.
Implicit Types (c : Cache T) (m : gomap T) (it : Item T) (key k : string).
Implicit Types (now created : Time) (value : any T) (duration d : Duration).
Implicit Types (clock : nat -> Time) (keys : list string).

Lemma with_items_same c : with_items c (items c) = c.
Proof. by destruct c. Qed.

Lemma Set_on now created c key value duration g :
  items c = Some g ->
  Cache_Set now created c key value duration =
  Returns (with_items c
             (Some (<[key := Set_entry now created c value duration]> g))).
Proof.
  intros Hg. rewrite Set_unfold, Hg. reflexivity.
Qed.

Lemma Set_entry_with_items now created c m value duration :
  Set_entry now created (with_items c m) value duration =
  Set_entry now created c value duration.
Proof. reflexivity. Qed.

Lemma initialized_items c : initialized c -> exists g, items c = Some g.
Proof. unfold initialized. destruct (items c) as [g|]; [by exists g | done]. Qed.

(** ** A fresh cache *)

(** X1: the cache [New] returns keeps the two durations it was given and
    is empty: it counts 0 entries, [GetAll] is empty, every [Get] misses
    and every [Delete] reports "Key not found"; the goroutine is started
    exactly when the cleanup interval is positive. *)
Theorem New_is_empty (defaultTTL interval : Duration) :
  defaultExpiration (New (T := T) defaultTTL interval).1 = defaultTTL
  /\ cleanupInterval (New (T := T) defaultTTL interval).1 = interval
  /\ items (New (T := T) defaultTTL interval).1 = Some ∅
  /\ Cache_Count (New (T := T) defaultTTL interval).1 = 0
  /\ Cache_GetAll (New (T := T) defaultTTL interval).1 = ∅
  /\ (forall now k,
        Cache_Get now (New (T := T) defaultTTL interval).1 k = (nil_any, false))
  /\ (forall k,
        Cache_Delete (New (T := T) defaultTTL interval).1 k =
        ((New (T := T) defaultTTL interval).1, KeyNotFound))
  /\ (New (T := T) defaultTTL interval).2 =
     if decide (0 < interval) then Some gc_waiting else None.
Proof.
  repeat split.
  unfold New. simpl. destruct (Z.ltb_spec 0 interval).
  - by rewrite decide_True.
  - rewrite decide_False; [done | lia].
Qed.

(** ** Delete after Delete, Delete after Set *)

(** X2: a second [Delete] of the same key, right after the first,
    always reports "Key not found" and leaves the cache as the first
    left it. *)
Theorem Delete_twice c key :
  Cache_Delete (Cache_Delete c key).1 key =
  ((Cache_Delete c key).1, KeyNotFound).
Proof.
  destruct (map_index (items c) key) as [it|] eqn:Hk.
  - rewrite (Delete_present _ _ _ Hk). simpl.
    apply Delete_absent. simpl. rewrite map_index_delete.
    by rewrite decide_True.
  - rewrite (Delete_absent _ _ Hk). simpl. by apply Delete_absent.
Qed.

(** X3: on an initialized cache, [Delete] of a key right after a [Set]
    of that key succeeds with the nil error and the key is gone; when the
    key was not in the map before the [Set], the cache is back exactly as
    it was. *)
Theorem Delete_after_Set now created c key value duration :
  initialized c ->
  exists c',
    Cache_Set now created c key value duration = Returns c'
    /\ (Cache_Delete c' key).2 = nil_error
    /\ (forall k, map_index (items (Cache_Delete c' key).1) k =
                  if decide (k = key) then None else map_index (items c) k)
    /\ (map_index (items c) key = None -> (Cache_Delete c' key).1 = c).
Proof.
  intros [g Hg]%initialized_items.
  eexists. split; [by apply Set_on|].
  set (it := Set_entry now created c value duration).
  assert (Hdel : Cache_Delete (with_items c (Some (<[key:=it]> g))) key =
                 (with_items c (Some (delete key (<[key:=it]> g))), nil_error)).
  { unfold Cache_Delete. simpl. by rewrite lookup_insert_eq. }
  rewrite Hdel. simpl. split; [done|]. split.
  - intros k. rewrite Hg. simpl. case_decide as Hk.
    + subst. apply lookup_delete_eq.
    + rewrite lookup_delete_ne, lookup_insert_ne by done. done.
  - intros Habs. rewrite Hg in Habs. simpl in Habs.
    rewrite delete_insert_id by done. rewrite <- Hg. apply with_items_same.
Qed.

(** ** Count along the writers *)

(** X4: on an initialized cache, [Set] of a key that is not in the map
    raises [Count] by one, and [Set] of a key that is in the map leaves
    [Count] as it was. *)
Theorem Count_after_Set now created c key value duration :
  initialized c ->
  exists c',
    Cache_Set now created c key value duration = Returns c'
    /\ Cache_Count c' =
       match map_index (items c) key with
       | Some _ => Cache_Count c
       | None => Cache_Count c + 1
       end.
Proof.
  intros [g Hg]%initialized_items.
  eexists. split; [by apply Set_on|].
  unfold Cache_Count. rewrite Hg. simpl.
  destruct (g !! key) as [it|] eqn:Hk.
  - rewrite map_size_insert_Some; [done | by eexists].
  - rewrite map_size_insert_None by done. lia.
Qed.

(** X5: [Delete] of a key that is in the map lowers [Count] by one;
    [Delete] of a key that is not leaves [Count] as it was. *)
Theorem Count_after_Delete c key :
  Cache_Count (Cache_Delete c key).1 =
  match map_index (items c) key with
  | Some _ => Cache_Count c - 1
  | None => Cache_Count c
  end.
Proof.
  destruct (map_index (items c) key) as [it|] eqn:Hk.
  - rewrite (Delete_present _ _ _ Hk). unfold Cache_Count. simpl.
    destruct (items c) as [g|] eqn:Hg; [|done]. simpl in *.
    rewrite map_size_delete_Some by by eexists.
    pose proof (map_size_ne_0_lookup_2 g key ltac:(by eexists)). lia.
  - by rewrite (Delete_absent _ _ Hk).
Qed.

(** ** Set after Set *)

(** X6: on an initialized cache, a second [Set] of the same key replaces
    the entry of the first entirely: the cache is the one the second
    [Set] alone would have produced. *)
Theorem Set_overwrites now1 created1 now2 created2 c key
    value1 duration1 value2 duration2 :
  initialized c ->
  exists c1 c2,
    Cache_Set now1 created1 c key value1 duration1 = Returns c1
    /\ Cache_Set now2 created2 c1 key value2 duration2 = Returns c2
    /\ Cache_Set now2 created2 c key value2 duration2 = Returns c2.
Proof.
  intros [g Hg]%initialized_items.
  eexists _, _. split; [by apply Set_on|]. split.
  - by apply Set_on.
  - rewrite (Set_on _ _ _ _ _ _ g Hg). rewrite Set_entry_with_items.
    unfold with_items. simpl. by rewrite insert_insert_eq.
Qed.

(** ** How long an entry lives *)

Lemma Get_live now c key it :
  map_index (items c) key = Some it -> ~ expired now it ->
  Cache_Get now c key = (Value it, true).
Proof. intros Hk Hlive. rewrite (Get_expired _ _ _ _ Hk). by rewrite decide_False. Qed.

Lemma scan_skips_live clock c key it :
  map_index (items c) key = Some it -> (forall now, ~ expired now it) ->
  key ∉ Cache_expiredKeys clock c.
Proof.
  intros Hk Hlive. unfold Cache_expiredKeys. rewrite expiredKeys_loop_elem.
  intros [Hin|(n & it' & Hn & Hexp)]; [by apply elem_of_nil in Hin|].
  apply list_elem_of_lookup_2, map_index_range in Hn.
  rewrite Hk in Hn. injection Hn as <-. by apply (Hlive (clock (0 + n)%nat)).
Qed.

Lemma sweep_keeps clock c key :
  key ∉ Cache_expiredKeys clock c ->
  map_index (items (sweep clock c)) key = map_index (items c) key.
Proof.
  intros Hout. rewrite sweep_clearItems. simpl. rewrite clear_index.
  by rewrite decide_False.
Qed.

(** An entry whose expiration is not positive is never past it. *)
Lemma not_positive_never_expired it :
  Expiration it <= 0 -> forall now, ~ expired now it.
Proof. unfold expired. intros Hexp now. lia. Qed.

Lemma Set_lives_forever now created c key value duration g :
  items c = Some g ->
  Expiration (Set_entry now created c value duration) <= 0 ->
  (forall later,
     Cache_Get later
       (with_items c (Some (<[key := Set_entry now created c value duration]> g)))
       key = (value, true))
  /\ (forall clock,
        key ∉ Cache_expiredKeys clock
          (with_items c (Some (<[key := Set_entry now created c value duration]> g))))
  /\ (forall clock,
        map_index
          (items (sweep clock
            (with_items c (Some (<[key := Set_entry now created c value duration]> g)))))
          key = Some (Set_entry now created c value duration)).
Proof.
  intros Hg Hexp.
  set (it := Set_entry now created c value duration) in *.
  set (c' := with_items c (Some (<[key := it]> g))).
  assert (Hk : map_index (items c') key = Some it) by apply lookup_insert_eq.
  pose proof (not_positive_never_expired it Hexp) as Hlive.
  split; [|split].
  - intros later. by rewrite (Get_live later c' key it Hk (Hlive later)).
  - intros clock. by eapply scan_skips_live.
  - intros clock. rewrite sweep_keeps; [done|]. by eapply scan_skips_live.
Qed.

(** X7: on an initialized cache, an entry stored by [Set] with a
    resulting duration that is zero or negative never expires: [Get]
    returns its value with true at every instant, no scan collects its
    key and every sweep leaves it in the map. *)
Theorem Set_without_expiry now created c key value duration :
  initialized c ->
  resulting_duration c duration <= 0 ->
  exists c',
    Cache_Set now created c key value duration = Returns c'
    /\ (forall later, Cache_Get later c' key = (value, true))
    /\ (forall clock, key ∉ Cache_expiredKeys clock c')
    /\ (forall clock,
          map_index (items (sweep clock c')) key = map_index (items c') key).
Proof.
  intros [g Hg]%initialized_items Hrd.
  eexists. split; [by apply Set_on|].
  assert (Hexp : Expiration (Set_entry now created c value duration) <= 0).
  { simpl. rewrite decide_False; lia. }
  destruct (Set_lives_forever now created c key value duration g Hg Hexp)
    as (HGet & Hscan & Hsweep).
  split; [done|]. split; [done|].
  intros clock. rewrite Hsweep. simpl. by rewrite lookup_insert_eq.
Qed.

(** X8: on an initialized cache, with a clock not before 1970, an entry
    stored by [Set] with a positive resulting duration whose expiration
    fits an [int64] is returned by [Get] at every instant up to and
    including now + duration, and hidden at every instant after it. *)
Theorem Set_expiry_window now created c key value duration :
  initialized c ->
  0 < resulting_duration c duration ->
  0 <= UnixNano now ->
  UnixNano now + resulting_duration c duration <= max_int64 ->
  exists c',
    Cache_Set now created c key value duration = Returns c'
    /\ forall later,
         Cache_Get later c' key =
         if decide (UnixNano later <= UnixNano now + resulting_duration c duration)
         then (value, true) else (nil_any, false).
Proof.
  intros [g Hg]%initialized_items Hrd Hnow Hfit.
  eexists. split; [by apply Set_on|]. intros later.
  set (it := Set_entry now created c value duration).
  assert (Hexp : Expiration it =
                 UnixNano now + resulting_duration c duration).
  { unfold it. simpl. rewrite decide_True by done. by apply UnixNano_Add. }
  rewrite (Get_expired later _ key it) by apply lookup_insert_eq.
  destruct (decide (expired later it)) as [He|He];
    unfold expired in He; rewrite Hexp in He;
    case_decide; try done; lia.
Qed.

(** X9: on an initialized cache, when the resulting duration is positive
    but now + duration exceeds the largest [int64], the expiration stored
    is negative and the entry never expires: [Get] returns its value with
    true at every instant and no scan collects its key. *)
Theorem Set_overflow_never_expires now created c key value duration :
  initialized c ->
  is_int64 (resulting_duration c duration) ->
  0 < resulting_duration c duration ->
  max_int64 < UnixNano now + resulting_duration c duration ->
  exists c' it,
    Cache_Set now created c key value duration = Returns c'
    /\ map_index (items c') key = Some it
    /\ Expiration it =
         UnixNano now + resulting_duration c duration - 2 ^ 64
    /\ Expiration it < 0
    /\ (forall later, Cache_Get later c' key = (value, true))
    /\ (forall clock, key ∉ Cache_expiredKeys clock c').
Proof.
  intros [g Hg]%initialized_items Hrd64 Hrd Hover.
  eexists _, (Set_entry now created c value duration).
  split; [by apply Set_on|]. split; [apply lookup_insert_eq|].
  assert (Hexp : Expiration (Set_entry now created c value duration) =
                 UnixNano now + resulting_duration c duration - 2 ^ 64).
  { simpl. rewrite decide_True by done. unfold UnixNano at 1, Add.
    rewrite wrap64_add. apply wrap64_overflow; [apply wrap64_is_int64|done..]. }
  assert (Hneg : Expiration (Set_entry now created c value duration) < 0).
  { rewrite Hexp. pose proof (wrap64_is_int64 now) as Hn.
    unfold is_int64, min_int64, max_int64, UnixNano in *. lia. }
  split; [done|]. split; [done|].
  destruct (Set_lives_forever now created c key value duration g Hg)
    as (HGet & Hscan & _); [lia|]. by split.
Qed.

(** X10: an entry that [Get] does not return at one instant, [Get] does
    not return at any instant whose timestamp is at least as large. *)
Theorem hidden_stays_hidden now later c key :
  UnixNano now <= UnixNano later ->
  (Cache_Get now c key).2 = false ->
  Cache_Get later c key = (nil_any, false).
Proof.
  intros Hle. rewrite !Get_decide.
  destruct (map_index (items c) key) as [it|]; [|done].
  repeat case_decide; try done; lia.
Qed.

(** ** GetAll beside Get and Count *)

Lemma GetAll_fmap c g : items c = Some g -> Cache_GetAll c = Value <$> g.
Proof.
  intros Hg. apply map_eq. intros k.
  unfold Cache_GetAll. rewrite (GetAll_loop_range (items c)) by done.
  by rewrite Hg, lookup_fmap.
Qed.

Lemma GetAll_nil c : items c = None -> Cache_GetAll c = ∅.
Proof. intros Hg. unfold Cache_GetAll. by rewrite Hg. Qed.

(** X11: the mapping [GetAll] returns has as many keys as [Count]
    reports, and a key is in it exactly when it is in the map. *)
Theorem GetAll_size_is_Count c :
  Z.of_nat (size (Cache_GetAll c)) = Cache_Count c
  /\ forall k, is_Some (Cache_GetAll c !! k) <-> is_Some (map_index (items c) k).
Proof.
  destruct (items c) as [g|] eqn:Hg.
  - rewrite (GetAll_fmap c g Hg). unfold Cache_Count. rewrite Hg. simpl.
    split; [by rewrite map_size_fmap|].
    intros k. rewrite lookup_fmap. apply fmap_is_Some.
  - rewrite (GetAll_nil c Hg). unfold Cache_Count. rewrite Hg. simpl.
    split; [done|]. intros k. by rewrite lookup_empty.
Qed.

(** X12: whatever value [Get] returns with true for a key, [GetAll]
    holds under that key. *)
Theorem GetAll_holds_what_Get_returns now c key :
  (Cache_Get now c key).2 = true ->
  Cache_GetAll c !! key = Some (Cache_Get now c key).1.
Proof.
  intros Hfound.
  assert (Hall : Cache_GetAll c !! key = Value <$> map_index (items c) key).
  { by apply GetAll_loop_range. }
  rewrite Hall. rewrite Get_decide in *.
  destruct (map_index (items c) key) as [it|]; [|done].
  by case_decide.
Qed.

(** ** What a scan collects and what clearing removes *)

Lemma expiredKeys_loop_NoDup clock j (visit : list (string * Item T)) keys :
  NoDup (keys ++ visit.*1) -> NoDup (expiredKeys_loop clock j visit keys).
Proof.
  revert j keys. induction visit as [|[k0 i0] visit IH]; intros j keys Hnd.
  - simpl in *. by rewrite app_nil_r in Hnd.
  - cbn [expiredKeys_loop]. rewrite fmap_cons in Hnd. simpl in Hnd.
    apply IH.
    destruct ((Expiration i0 <? UnixNano (clock j)) && (0 <? Expiration i0)).
    + by rewrite <- app_assoc.
    + apply NoDup_app in Hnd as (Hkeys & Hdisj & Hrest).
      apply NoDup_cons in Hrest as [_ Hrest].
      apply NoDup_app. split; [done|]. split; [|done].
      intros x Hx Hin. apply (Hdisj x Hx). by right.
Qed.

Lemma expiredKeys_in_map clock c k :
  k ∈ Cache_expiredKeys clock c ->
  exists it, map_index (items c) k = Some it /\ 0 < Expiration it.
Proof.
  unfold Cache_expiredKeys. rewrite expiredKeys_loop_elem.
  intros [Hin|(n & it & Hn & Hexp)]; [by apply elem_of_nil in Hin|].
  exists it. split; [|by destruct Hexp].
  by apply map_index_range, (list_elem_of_lookup_2 _ n).
Qed.

(** X13: a scan returns no key twice, and every key it returns is in the
    map with a positive expiration. *)
Theorem expiredKeys_distinct_and_present clock c :
  NoDup (Cache_expiredKeys clock c)
  /\ forall k, k ∈ Cache_expiredKeys clock c ->
       exists it, map_index (items c) k = Some it /\ 0 < Expiration it.
Proof.
  split.
  - apply expiredKeys_loop_NoDup. simpl. apply map_range_NoDup.
  - intros k. apply expiredKeys_in_map.
Qed.

Lemma clear_len m keys :
  NoDup keys ->
  (forall k, k ∈ keys -> is_Some (map_index m k)) ->
  map_len (foldl map_delete m keys) + Z.of_nat (length keys) = map_len m.
Proof.
  revert m. induction keys as [|k0 keys IH]; intros m Hnd Hin.
  - simpl. lia.
  - apply NoDup_cons in Hnd as [Hk0 Hnd]. cbn [foldl length].
    rewrite Nat2Z.inj_succ.
    assert (Hstep : map_len (map_delete m k0) = map_len m - 1).
    { destruct (Hin k0 ltac:(by left)) as [it Hit].
      destruct m as [g|]; [|done]. simpl in *.
      rewrite map_size_delete_Some by by eexists.
      pose proof (map_size_ne_0_lookup_2 g k0 ltac:(by eexists)). lia. }
    rewrite <- (IH (map_delete m k0) Hnd) in Hstep; [lia|].
    intros k Hk. rewrite map_index_delete.
    rewrite decide_False by (intros ->; done).
    apply Hin. by right.
Qed.

(** X14: a sweep lowers [Count] by exactly the number of keys its scan
    collected. *)
Theorem sweep_lowers_Count clock c :
  Cache_Count (sweep clock c) =
  Cache_Count c - Z.of_nat (length (Cache_expiredKeys clock c)).
Proof.
  rewrite sweep_clearItems. unfold Cache_Count. simpl.
  pose proof (clear_len (items c) (Cache_expiredKeys clock c)) as Hlen.
  rewrite <- Hlen; [lia| |].
  - apply expiredKeys_loop_NoDup. simpl. apply map_range_NoDup.
  - intros k Hk. destruct (expiredKeys_in_map clock c k Hk) as (it & Hit & _).
    by eexists.
Qed.

Lemma sweep_at clock c j k it :
  map_range (items c) !! j = Some (k, it) ->
  map_index (items (sweep clock c)) k =
  if decide (expired (clock j) it) then None else Some it.
Proof.
  intros Hj. rewrite sweep_clearItems. unfold Cache_expiredKeys.
  destruct (clear_collected clock c (map_range (items c)) (reflexivity _))
    as [Hin _]. by apply Hin.
Qed.

Lemma sweep_absent clock c k :
  map_index (items c) k = None -> map_index (items (sweep clock c)) k = None.
Proof.
  intros Hk. rewrite sweep_clearItems. unfold Cache_expiredKeys.
  destruct (clear_collected clock c (map_range (items c)) (reflexivity _))
    as [_ Hout]. by apply Hout.
Qed.

(** X15: a sweep changes nothing [Get] can see from then on: at every
    instant whose timestamp is at least that of each clock reading of the
    scan, [Get] returns from the swept cache what it returns from the
    cache before the sweep. *)
Theorem Get_after_sweep clock later c key :
  (forall j, UnixNano (clock j) <= UnixNano later) ->
  Cache_Get later (sweep clock c) key = Cache_Get later c key.
Proof.
  intros Hclock.
  destruct (map_index (items c) key) as [it|] eqn:Hk.
  - pose proof Hk as Hin.
    apply map_index_range, list_elem_of_lookup_1 in Hin as [j Hj].
    pose proof (sweep_at clock c j key it Hj) as Hsw.
    rewrite (Get_expired later c key it Hk).
    destruct (decide (expired (clock j) it)) as [Hexp|Hexp].
    + rewrite Get_decide, Hsw. rewrite decide_True; [done|].
      unfold expired in *. specialize (Hclock j). lia.
    + by rewrite (Get_expired later _ key it Hsw).
  - rewrite !Get_decide, Hk. by rewrite (sweep_absent clock c key Hk).
Qed.

(** X16: after a sweep whose scan read one instant, a scan at that
    instant or any earlier one collects nothing, and a second sweep
    changes nothing. *)
Theorem sweep_leaves_nothing_expired now earlier c :
  UnixNano earlier <= UnixNano now ->
  Cache_expiredKeys (fun _ => earlier) (sweep (fun _ => now) c) = []
  /\ sweep (fun _ => earlier) (sweep (fun _ => now) c) = sweep (fun _ => now) c.
Proof.
  intros Hle.
  assert (Hnone : Cache_expiredKeys (fun _ => earlier) (sweep (fun _ => now) c)
                  = []).
  { apply elem_of_nil_inv. intros k Hk.
    unfold Cache_expiredKeys in Hk. apply expiredKeys_loop_elem in Hk
      as [Hin|(n & it & Hn & Hexp)]; [by apply elem_of_nil in Hin|].
    apply list_elem_of_lookup_2, map_index_range in Hn.
    destruct (map_index (items c) k) as [it0|] eqn:Hk0.
    - pose proof Hk0 as Hin.
      apply map_index_range, list_elem_of_lookup_1 in Hin as [j Hj].
      rewrite (sweep_at (fun _ => now) c j k it0 Hj) in Hn.
      case_decide as Hlive; [done|]. injection Hn as <-.
      apply Hlive. unfold expired in *. lia.
    - by rewrite (sweep_absent _ c k Hk0) in Hn. }
  split; [done|]. unfold sweep at 1. by rewrite Hnone.
Qed.

(** X17: [clearItems] removes the keys it is given and no other, keeps
    the configuration and the map initialized; keys that are not in the
    map are passed over, and when none of them is, the cache is
    unchanged. *)
Theorem clearItems_removes_listed c keys :
  defaultExpiration (Cache_clearItems c keys) = defaultExpiration c
  /\ cleanupInterval (Cache_clearItems c keys) = cleanupInterval c
  /\ (items (Cache_clearItems c keys) = None <-> items c = None)
  /\ (forall k, map_index (items (Cache_clearItems c keys)) k =
               if decide (k ∈ keys) then None else map_index (items c) k)
  /\ ((forall k, k ∈ keys -> map_index (items c) k = None) ->
      Cache_clearItems c keys = c).
Proof.
  split; [done|]. split; [done|]. split; [apply clear_nil|].
  split; [intros k; apply clear_index|].
  intros Habs.
  assert (Hsame : foldl map_delete (items c) keys = items c).
  { destruct (items c) as [g|] eqn:Hg; [|by apply clear_nil].
    destruct (foldl map_delete (Some g) keys) as [g'|] eqn:Hg';
      [|by apply clear_nil in Hg'].
    f_equal. apply map_eq. intros k.
    change (map_index (Some g') k = map_index (Some g) k).
    rewrite <- Hg', clear_index. case_decide as Hk; [|done].
    symmetry. by apply Habs. }
  unfold Cache_clearItems. rewrite Hsame. apply with_items_same.
Qed.

Lemma Set_entry_live now created c value duration :
  is_int64 duration -> is_int64 (defaultExpiration c) ->
  ~ expired now (Set_entry now created c value duration).
Proof.
  intros Hd Hdef [Hpos Hlt].
  assert (Hrd64 : is_int64 (resulting_duration c duration)).
  { unfold resulting_duration. by case_decide. }
  unfold Set_entry in Hpos, Hlt. cbn [Expiration] in Hpos, Hlt.
  case_decide as Hrd; [|lia].
  unfold UnixNano at 1, Add in Hpos. unfold UnixNano at 1, Add in Hlt.
  rewrite wrap64_add in Hpos, Hlt. fold (UnixNano now) in Hpos, Hlt.
  pose proof (wrap64_is_int64 now) as Hnow. fold (UnixNano now) in Hnow.
  destruct (decide (UnixNano now + resulting_duration c duration <= max_int64))
    as [Hfit|Hover].
  - rewrite wrap64_id in Hlt; [lia|].
    unfold is_int64, min_int64, max_int64 in *. lia.
  - rewrite wrap64_overflow in Hpos by (done || lia).
    unfold is_int64, min_int64, max_int64 in *. lia.
Qed.

(** X18: [clearItems] does not look at the entries again: when a key the
    scan collected is stored anew by [Set] before the keys are cleared,
    clearing removes the new entry although [Get] was returning it. *)
Theorem clearItems_removes_refreshed clock now created c key value duration :
  initialized c ->
  is_int64 duration ->
  is_int64 (defaultExpiration c) ->
  key ∈ Cache_expiredKeys clock c ->
  exists c',
    Cache_Set now created c key value duration = Returns c'
    /\ Cache_Get now c' key = (value, true)
    /\ map_index
         (items (Cache_clearItems c' (Cache_expiredKeys clock c))) key = None
    /\ forall later,
         Cache_Get later (Cache_clearItems c' (Cache_expiredKeys clock c)) key
         = (nil_any, false).
Proof.
  intros [g Hg]%initialized_items Hd Hdef Hkey.
  eexists. split; [by apply Set_on|].
  set (it := Set_entry now created c value duration).
  set (c' := with_items c (Some (<[key := it]> g))).
  assert (Hk : map_index (items c') key = Some it) by apply lookup_insert_eq.
  assert (Hgone : map_index
            (items (Cache_clearItems c' (Cache_expiredKeys clock c))) key = None).
  { simpl. rewrite clear_index. by rewrite decide_True. }
  split; [|split; [done|]].
  - rewrite (Get_live now c' key it Hk); [done|].
    by apply Set_entry_live.
  - intros later. by rewrite Get_decide, Hgone.
Qed.

(** ** A cache that [New] did not build *)

(** X19: on a cache whose map is nil the readers behave as on an empty
    cache ([Get] misses, [GetAll] is empty, [Count] is 0, a scan collects
    nothing), [Delete] reports "Key not found", [Set] panics, and the
    goroutine returns at its first wake and takes no step after. *)
Theorem nil_map_cache c :
  items c = None ->
  (forall now k, Cache_Get now c k = (nil_any, false))
  /\ Cache_GetAll c = ∅
  /\ Cache_Count c = 0
  /\ (forall clock, Cache_expiredKeys clock c = [])
  /\ (forall k, Cache_Delete c k = (c, KeyNotFound))
  /\ (forall now created k value duration,
        Cache_Set now created c k value duration =
        Panics "assignment to entry in nil map")
  /\ (forall clock, GC_step clock c gc_waiting = Some (c, gc_returned))
  /\ (forall clock, GC_step clock c gc_returned = None).
Proof.
  intros Hnil.
  unfold Cache_Get, Cache_GetAll, Cache_Count, Cache_expiredKeys, Cache_Delete,
    Cache_Set, GC_step.
  rewrite Hnil. by repeat split.
Qed.

(** ** The running program *)

Lemma perform_configuration now created c (op : call T) c' r :
  perform now created c op = Returns (c', r) ->
  defaultExpiration c' = defaultExpiration c
  /\ cleanupInterval c' = cleanupInterval c.
Proof.
  destruct op as [key value duration|key| |key|]; simpl.
  - unfold Cache_Set. destruct (items c) as [g|]; [|done]. simpl.
    by intros [= <- <-].
  - destruct (Cache_Get now c key). by intros [= <- <-].
  - by intros [= <- <-].
  - unfold Cache_Delete. by destruct (map_index (items c) key);
      intros [= <- <-].
  - by intros [= <- <-].
Qed.

Lemma GC_step_configuration clock c pc c' pc' :
  GC_step clock c pc = Some (c', pc') ->
  defaultExpiration c' = defaultExpiration c
  /\ cleanupInterval c' = cleanupInterval c.
Proof.
  destruct pc as [| |keys|]; simpl; [| | |done].
  - by destruct (items c); intros [= <- <-].
  - by intros [= <- <-].
  - by intros [= <- <-].
Qed.

(** X20: in every state of a program that built its cache with
    [New(d, ci)], the cache still has default expiration [d] and cleanup
    interval [ci]: no call and no step of the goroutine changes them. *)
Theorem configuration_is_fixed d ci (s : system T) :
  reachable d ci s ->
  defaultExpiration s.1 = d /\ cleanupInterval s.1 = ci.
Proof.
  intros Hreach. induction Hreach as [|s s' _ [IHd IHci] Hstep]; [done|].
  destruct Hstep as [now created c g op c' r Hop|clock c pc0 c' pc' Hgc
                    |clock visit c Hvisit]; simpl in *.
  - destruct (perform_configuration _ _ _ _ _ _ Hop) as [-> ->]. done.
  - destruct (GC_step_configuration _ _ _ _ _ Hgc) as [-> ->]. done.
  - done.
Qed.

Lemma perform_keeps_or_deletes now created c (op : call T) c' r k :
  perform now created c op = Returns (c', r) ->
  is_Some (map_index (items c) k) ->
  map_index (items c') k = None ->
  Cache_Delete c k = (c', nil_error).
Proof.
  intros Hop [it Hk] Hgone.
  destruct op as [key value duration|key| |key|]; simpl in Hop.
  - unfold Cache_Set in Hop. destruct (items c) as [g|] eqn:Hg; [|done].
    simpl in *. injection Hop as <- <-. simpl in Hgone.
    destruct (decide (key = k)) as [->|Hne].
    + by rewrite lookup_insert_eq in Hgone.
    + rewrite lookup_insert_ne in Hgone by done. congruence.
  - destruct (Cache_Get now c key). injection Hop as <- <-. congruence.
  - injection Hop as <- <-. congruence.
  - unfold Cache_Delete in *.
    destruct (map_index (items c) key) as [it'|] eqn:Hkey;
      injection Hop as <- <-; [|congruence].
    simpl in Hgone. rewrite map_index_delete in Hgone.
    case_decide as Heq; [|congruence]. subst key. by rewrite Hk.
  - injection Hop as <- <-. congruence.
Qed.

(** X21: in a program that built its cache with a cleanup interval that
    is zero or negative there is never a goroutine, and an entry leaves
    the map only by a [Delete] of its key that returns the nil error. *)
Theorem no_goroutine_without_interval d ci (s : system T) :
  ci <= 0 ->
  reachable d ci s ->
  s.2 = None
  /\ forall s', step s s' ->
       s'.2 = None
       /\ forall k,
            is_Some (map_index (items s.1) k) ->
            map_index (items s'.1) k = None ->
            Cache_Delete s.1 k = (s'.1, nil_error).
Proof.
  intros Hci Hreach.
  assert (Hnone : s.2 = None).
  { induction Hreach as [|s s' _ IH Hstep].
    - unfold New. simpl. destruct (Z.ltb_spec 0 ci); [lia | done].
    - destruct Hstep; simpl in *; done. }
  split; [done|]. intros s' Hstep.
  destruct Hstep as [now created c g op c' r Hop|clock c pc0 c' pc' Hgc
                    |clock visit c Hvisit]; simpl in *; try done.
  split; [done|]. intros k. by eapply perform_keeps_or_deletes.
Qed.

(** ** Many writers *)

Lemma Set_all_spec c (calls : list (Time * Time * (string * any T * Duration))) :
  initialized c ->
  NoDup ((fun x => x.2.1.1) <$> calls) ->
  exists c',
    Set_all c calls = Returns c'
    /\ defaultExpiration c' = defaultExpiration c
    /\ initialized c'
    /\ (forall now created key value duration,
          (now, created, (key, value, duration)) ∈ calls ->
          map_index (items c') key =
          Some (Set_entry now created c value duration))
    /\ (forall k, k ∉ (fun x => x.2.1.1) <$> calls ->
          map_index (items c') k = map_index (items c) k)
    /\ ((forall k, k ∈ (fun x => x.2.1.1) <$> calls ->
           map_index (items c) k = None) ->
        Cache_Count c' = Cache_Count c + Z.of_nat (length calls)).
Proof.
  revert c.
  induction calls as [|[[now0 created0] [[key0 value0] duration0]] calls IH];
    intros c Hinit Hnd.
  - exists c. split; [done|]. split; [done|]. split; [done|].
    split; [by intros ????? ?%elem_of_nil|]. split; [done|].
    intros _. simpl. lia.
  - rewrite fmap_cons in Hnd. simpl in Hnd.
    apply NoDup_cons in Hnd as [Hkey0 Hnd].
    destruct (initialized_items c Hinit) as [g Hg].
    set (e0 := Set_entry now0 created0 c value0 duration0).
    set (c1 := with_items c (Some (<[key0 := e0]> g))).
    destruct (IH c1 ltac:(done) Hnd)
      as (c' & Hrun & Hdef & Hinit' & Hin & Hout & Hcount).
    exists c'. split.
    { cbn [Set_all]. by rewrite (Set_on _ _ _ _ _ _ g Hg). }
    split; [done|]. split; [done|]. split; [|split].
    + intros now created key value duration Hcall.
      apply elem_of_cons in Hcall as [Heq|Hcall].
      * injection Heq as -> -> -> -> ->.
        rewrite (Hout key0 Hkey0). apply lookup_insert_eq.
      * by rewrite (Hin _ _ _ _ _ Hcall).
    + intros k Hk. rewrite fmap_cons in Hk. simpl in Hk.
      apply not_elem_of_cons in Hk as [Hne Hk].
      rewrite (Hout k Hk). simpl. rewrite Hg. simpl.
      by apply lookup_insert_ne.
    + intros Habs. rewrite Hcount.
      * unfold Cache_Count. simpl. rewrite Hg. simpl.
        rewrite map_size_insert_None.
        -- rewrite Nat2Z.inj_succ. lia.
        -- specialize (Habs key0). rewrite Hg in Habs. apply Habs.
           rewrite fmap_cons. by left.
      * intros k Hk. simpl.
        rewrite lookup_insert_ne by (intros ->; done).
        specialize (Habs k). rewrite Hg in Habs. apply Habs.
        rewrite fmap_cons. by right.
Qed.

(** X22: calls of [Set] on pairwise distinct keys, made one after
    another in any order on an initialized cache, all return, and leave
    under each key the entry of its own call; no other key is touched,
    and when none of the keys was in the map, [Count] has grown by the
    number of calls. *)
Theorem Set_all_distinct_keys c
    (calls : list (Time * Time * (string * any T * Duration))) :
  initialized c ->
  NoDup ((fun x => x.2.1.1) <$> calls) ->
  exists c',
    Set_all c calls = Returns c'
    /\ (forall now created key value duration,
          (now, created, (key, value, duration)) ∈ calls ->
          map_index (items c') key =
          Some (Set_entry now created c value duration))
    /\ (forall k, k ∉ (fun x => x.2.1.1) <$> calls ->
          map_index (items c') k = map_index (items c) k)
    /\ ((forall k, k ∈ (fun x => x.2.1.1) <$> calls ->
           map_index (items c) k = None) ->
        Cache_Count c' = Cache_Count c + Z.of_nat (length calls)).
Proof.
  intros Hinit Hnd.
  destruct (Set_all_spec c calls Hinit Hnd)
    as (c' & Hrun & _ & _ & Hin & Hout & Hcount).
  by exists c'.
Qed.

End Composition.

(** ** The two writers of [main] *)





(** * The concrete program *)

(** ** The theorems at the cache of [main] *)

Lemma Set_stores_entry_witness :
  initialized main_cache
  /\ exists c' it,
       Cache_Set sample_now sample_now main_cache "1" (Some 1) (1 * Minute)
         = Returns c'
       /\ initialized c'
       /\ defaultExpiration c' = defaultExpiration main_cache
       /\ cleanupInterval c' = cleanupInterval main_cache
       /\ map_index (items c') "1" = Some it
       /\ Value it = Some 1
       /\ Created it = sample_now
       /\ (forall k, k <> "1" ->
             map_index (items c') k = map_index (items main_cache) k)
       /\ (0 < resulting_duration main_cache (1 * Minute) ->
           UnixNano sample_now + resulting_duration main_cache (1 * Minute)
             <= max_int64 ->
           Expiration it =
             UnixNano sample_now + resulting_duration main_cache (1 * Minute))
       /\ (resulting_duration main_cache (1 * Minute) <= 0 ->
           Expiration it = 0).
Proof.
  split; [discriminate|].
  apply (Set_stores_entry sample_now sample_now main_cache "1" (Some 1)
           (1 * Minute)).
  discriminate.
Defined.

Lemma Get_after_Set_witness :
  initialized main_cache
  /\ is_int64 max_int64
  /\ is_int64 (defaultExpiration main_cache)
  /\ exists c',
       Cache_Set sample_now sample_now main_cache "1" (Some 1) max_int64
         = Returns c'
       /\ Cache_Get sample_now c' "1" = (Some 1, true).
Proof.
  assert (H1 : initialized main_cache) by discriminate.
  assert (H2 : is_int64 max_int64) by (vm_compute; split; discriminate).
  assert (H3 : is_int64 (defaultExpiration main_cache))
    by (vm_compute; split; discriminate).
  split; [exact H1|]. split; [exact H2|]. split; [exact H3|].
  exact (Get_after_Set sample_now sample_now main_cache "1" (Some 1)
           max_int64 H1 H2 H3).
Defined.

Lemma Set_zero_is_default_witness :
  defaultExpiration main_cache = 5 * Minute
  /\ 0 < 5 * Minute
  /\ Cache_Set sample_now sample_now main_cache "1" (Some 1) 0 =
     Cache_Set sample_now sample_now main_cache "1" (Some 1) (5 * Minute)
  /\ (initialized main_cache ->
      exists c',
        Cache_Set sample_now sample_now main_cache "1" (Some 1) 0 = Returns c'
        /\ map_index (items c') "1" =
             Some {| Value := Some 1; Created := sample_now;
                     Expiration := UnixNano (Add sample_now (5 * Minute)) |}).
Proof.
  split; [reflexivity|]. split; [reflexivity|].
  apply (Set_zero_is_default sample_now sample_now main_cache "1" (Some 1)
           (5 * Minute)); reflexivity.
Defined.

Lemma expiration_is_strict_witness :
  map_index (items sample_cache) "1" = Some sample_item
  /\ 0 < Expiration sample_item
  /\ (UnixNano (sample_now + 1 * Minute) = Expiration sample_item ->
        Cache_Get (sample_now + 1 * Minute) sample_cache "1"
          = (Value sample_item, true)
        /\ "1" ∉ Cache_expiredKeys (fun _ => sample_now + 1 * Minute)
                  sample_cache)
  /\ ((Cache_Get (sample_now + 1 * Minute) sample_cache "1").2 = false
      <-> UnixNano (sample_now + 1 * Minute) > Expiration sample_item)
  /\ ("1" ∈ Cache_expiredKeys (fun _ => sample_now + 1 * Minute) sample_cache
      <-> UnixNano (sample_now + 1 * Minute) > Expiration sample_item)
  /\ (forall clock j,
        map_range (items sample_cache) !! j = Some ("1", sample_item) ->
        "1" ∈ Cache_expiredKeys clock sample_cache
        <-> UnixNano (clock j) > Expiration sample_item).
Proof.
  split; [reflexivity|]. split; [reflexivity|].
  apply (expiration_is_strict (sample_now + 1 * Minute) sample_cache "1"
           sample_item); reflexivity.
Defined.

Lemma GC_never_returns_witness :
  0 < 1 * Minute
  /\ reachable (5 * Minute) (1 * Minute) main_system
  /\ initialized main_system.1
  /\ exists pc,
       main_system.2 = Some pc
       /\ pc <> gc_returned
       /\ (forall clock, exists c' pc',
             GC_step clock main_system.1 pc = Some (c', pc')
             /\ pc' <> gc_returned
             /\ reachable (5 * Minute) (1 * Minute) (c', Some pc'))
       /\ (forall n clocks, exists c' pc',
             GC_steps n clocks main_system.1 pc = Some (c', pc')
             /\ pc' <> gc_returned)
       /\ (pc = gc_waiting ->
           forall clock, exists n, (0 < n)%nat
             /\ GC_steps n (fun _ => clock) main_system.1 gc_waiting =
                Some (sweep clock main_system.1, gc_waiting)).
Proof.
  split; [reflexivity|]. split; [apply reachable_New|].
  apply (GC_never_returns (5 * Minute) (1 * Minute) main_system);
    [reflexivity | apply reachable_New].
Defined.

(** ** A duration too long for the clock *)

(** [Set] with the longest duration there is: the sum of the clock and
    the duration does not fit an [int64], and the expiration stored is not
    that sum but a negative number. *)
Lemma Set_expiration_not_sum :
  is_int64 sample_now
  /\ is_int64 max_int64
  /\ 0 < resulting_duration main_cache max_int64
  /\ exists c' it,
       Cache_Set sample_now sample_now main_cache "a" (Some 1) max_int64
         = Returns c'
       /\ map_index (items c') "a" = Some it
       /\ Expiration it = -7523372036854775809
       /\ Expiration it <> sample_now + max_int64.
Proof.
  split; [vm_compute; split; discriminate|].
  split; [vm_compute; split; discriminate|].
  split; [reflexivity|].
  eexists _, _. split; [reflexivity|]. split; [reflexivity|].
  split; [reflexivity|]. vm_compute. discriminate.
Qed.

(** ** Runs *)

(** An entry past its expiration: hidden by [Get], present in [GetAll],
    counted by [Count], gone after a sweep. *)
Example expired_entry_run :
  let later := sample_now + 2 * Minute in
  Cache_Get later sample_cache "1" = (None, false)
  /\ Cache_GetAll sample_cache !! "1" = Some (Some 1)
  /\ Cache_Count sample_cache = 1
  /\ Cache_expiredKeys (fun _ => later) sample_cache = ["1"]
  /\ map_index (items (sweep (fun _ => later) sample_cache)) "1" = None
  /\ Cache_Count (sweep (fun _ => later) sample_cache) = 0.
Proof. vm_compute. repeat split. Qed.

(** [Delete] twice: nil, then "Key not found". *)
Example delete_twice_run :
  (Cache_Delete sample_cache "1").2 = nil_error
  /\ (Cache_Delete (Cache_Delete sample_cache "1").1 "1").2 = KeyNotFound.
Proof. vm_compute. repeat split. Qed.

(** [Set] on a cache that [New] did not build panics. *)
Example Set_on_nil_map :
  Cache_Set sample_now sample_now
    {| defaultExpiration := 0; cleanupInterval := 0; items := None |}
    "a" (Some 1) 0
  = Panics "assignment to entry in nil map".
Proof. reflexivity. Qed.

(** ** The compositions at the cache of [main] *)

Lemma Delete_after_Set_witness :
  initialized main_cache
  /\ exists c',
       Cache_Set sample_now sample_now main_cache "1" (Some 1) (1 * Minute)
         = Returns c'
       /\ (Cache_Delete c' "1").2 = nil_error
       /\ (forall k, map_index (items (Cache_Delete c' "1").1) k =
                     if decide (k = "1") then None
                     else map_index (items main_cache) k)
       /\ (map_index (items main_cache) "1" = None ->
           (Cache_Delete c' "1").1 = main_cache).
Proof.
  split; [discriminate|].
  apply (Delete_after_Set sample_now sample_now main_cache "1" (Some 1)
           (1 * Minute)).
  discriminate.
Defined.

Lemma Count_after_Set_witness :
  initialized sample_cache
  /\ exists c',
       Cache_Set sample_now sample_now sample_cache "2" (Some 2) (2 * Minute)
         = Returns c'
       /\ Cache_Count c' =
          match map_index (items sample_cache) "2" with
          | Some _ => Cache_Count sample_cache
          | None => Cache_Count sample_cache + 1
          end.
Proof.
  split; [discriminate|].
  apply (Count_after_Set sample_now sample_now sample_cache "2" (Some 2)
           (2 * Minute)).
  discriminate.
Defined.

Lemma Set_overwrites_witness :
  initialized main_cache
  /\ exists c1 c2,
       Cache_Set sample_now sample_now main_cache "1" (Some 1) (1 * Minute)
         = Returns c1
       /\ Cache_Set (sample_now + 1) (sample_now + 1) c1 "1" (Some 2) 0
         = Returns c2
       /\ Cache_Set (sample_now + 1) (sample_now + 1) main_cache "1" (Some 2) 0
         = Returns c2.
Proof.
  split; [discriminate|].
  apply (Set_overwrites sample_now sample_now (sample_now + 1) (sample_now + 1)
           main_cache "1" (Some 1) (1 * Minute) (Some 2) 0).
  discriminate.
Defined.

Lemma Set_without_expiry_witness :
  initialized main_cache
  /\ resulting_duration main_cache (-1) <= 0
  /\ exists c',
       Cache_Set sample_now sample_now main_cache "1" (Some 1) (-1) = Returns c'
       /\ (forall later, Cache_Get later c' "1" = (Some 1, true))
       /\ (forall clock, "1" ∉ Cache_expiredKeys clock c')
       /\ (forall clock,
             map_index (items (sweep clock c')) "1" = map_index (items c') "1").
Proof.
  assert (H1 : initialized main_cache) by discriminate.
  assert (H2 : resulting_duration main_cache (-1) <= 0)
    by (vm_compute; discriminate).
  split; [exact H1|]. split; [exact H2|].
  exact (Set_without_expiry sample_now sample_now main_cache "1" (Some 1) (-1)
           H1 H2).
Defined.

Lemma Set_expiry_window_witness :
  initialized main_cache
  /\ 0 < resulting_duration main_cache (1 * Minute)
  /\ 0 <= UnixNano sample_now
  /\ UnixNano sample_now + resulting_duration main_cache (1 * Minute)
       <= max_int64
  /\ exists c',
       Cache_Set sample_now sample_now main_cache "1" (Some 1) (1 * Minute)
         = Returns c'
       /\ forall later,
            Cache_Get later c' "1" =
            if decide (UnixNano later <=
                       UnixNano sample_now
                       + resulting_duration main_cache (1 * Minute))
            then (Some 1, true) else (nil_any, false).
Proof.
  assert (H1 : initialized main_cache) by discriminate.
  assert (H2 : 0 < resulting_duration main_cache (1 * Minute)) by reflexivity.
  assert (H3 : 0 <= UnixNano sample_now) by (vm_compute; discriminate).
  assert (H4 : UnixNano sample_now + resulting_duration main_cache (1 * Minute)
               <= max_int64) by (vm_compute; discriminate).
  split; [exact H1|]. split; [exact H2|]. split; [exact H3|]. split; [exact H4|].
  exact (Set_expiry_window sample_now sample_now main_cache "1" (Some 1)
           (1 * Minute) H1 H2 H3 H4).
Defined.

Lemma Set_overflow_never_expires_witness :
  initialized main_cache
  /\ is_int64 (resulting_duration main_cache max_int64)
  /\ 0 < resulting_duration main_cache max_int64
  /\ max_int64 < UnixNano sample_now + resulting_duration main_cache max_int64
  /\ exists c' it,
       Cache_Set sample_now sample_now main_cache "1" (Some 1) max_int64
         = Returns c'
       /\ map_index (items c') "1" = Some it
       /\ Expiration it =
            UnixNano sample_now + resulting_duration main_cache max_int64
            - 2 ^ 64
       /\ Expiration it < 0
       /\ (forall later, Cache_Get later c' "1" = (Some 1, true))
       /\ (forall clock, "1" ∉ Cache_expiredKeys clock c').
Proof.
  assert (H1 : initialized main_cache) by discriminate.
  assert (H2 : is_int64 (resulting_duration main_cache max_int64))
    by (vm_compute; split; discriminate).
  assert (H3 : 0 < resulting_duration main_cache max_int64) by reflexivity.
  assert (H4 : max_int64 <
               UnixNano sample_now + resulting_duration main_cache max_int64)
    by reflexivity.
  split; [exact H1|]. split; [exact H2|]. split; [exact H3|]. split; [exact H4|].
  exact (Set_overflow_never_expires sample_now sample_now main_cache "1"
           (Some 1) max_int64 H1 H2 H3 H4).
Defined.

Lemma hidden_stays_hidden_witness :
  UnixNano (sample_now + 2 * Minute) <= UnixNano (sample_now + 3 * Minute)
  /\ (Cache_Get (sample_now + 2 * Minute) sample_cache "1").2 = false
  /\ Cache_Get (sample_now + 3 * Minute) sample_cache "1" = (nil_any, false).
Proof.
  assert (H1 : UnixNano (sample_now + 2 * Minute)
               <= UnixNano (sample_now + 3 * Minute))
    by (vm_compute; discriminate).
  assert (H2 : (Cache_Get (sample_now + 2 * Minute) sample_cache "1").2 = false)
    by reflexivity.
  split; [exact H1|]. split; [exact H2|].
  exact (hidden_stays_hidden (sample_now + 2 * Minute) (sample_now + 3 * Minute)
           sample_cache "1" H1 H2).
Defined.

Lemma GetAll_holds_what_Get_returns_witness :
  (Cache_Get sample_now sample_cache "1").2 = true
  /\ Cache_GetAll sample_cache !! "1" =
     Some (Cache_Get sample_now sample_cache "1").1.
Proof.
  split; [reflexivity|].
  apply (GetAll_holds_what_Get_returns sample_now sample_cache "1").
  reflexivity.
Defined.

Lemma Get_after_sweep_witness :
  (forall j : nat,
     UnixNano ((fun _ : nat => sample_now + 2 * Minute) j)
     <= UnixNano (sample_now + 3 * Minute))
  /\ Cache_Get (sample_now + 3 * Minute)
       (sweep (fun _ => sample_now + 2 * Minute) sample_cache) "1"
     = Cache_Get (sample_now + 3 * Minute) sample_cache "1".
Proof.
  assert (H1 : forall j : nat,
             UnixNano ((fun _ : nat => sample_now + 2 * Minute) j)
             <= UnixNano (sample_now + 3 * Minute))
    by (intros j; vm_compute; discriminate).
  split; [exact H1|].
  exact (Get_after_sweep (fun _ => sample_now + 2 * Minute)
           (sample_now + 3 * Minute) sample_cache "1" H1).
Defined.

Lemma sweep_leaves_nothing_expired_witness :
  UnixNano sample_now <= UnixNano (sample_now + 2 * Minute)
  /\ Cache_expiredKeys (fun _ => sample_now)
       (sweep (fun _ => sample_now + 2 * Minute) sample_cache) = []
  /\ sweep (fun _ => sample_now)
       (sweep (fun _ => sample_now + 2 * Minute) sample_cache)
     = sweep (fun _ => sample_now + 2 * Minute) sample_cache.
Proof.
  assert (H1 : UnixNano sample_now <= UnixNano (sample_now + 2 * Minute))
    by (vm_compute; discriminate).
  split; [exact H1|].
  exact (sweep_leaves_nothing_expired (sample_now + 2 * Minute) sample_now
           sample_cache H1).
Defined.

Lemma clearItems_removes_refreshed_witness :
  initialized sample_cache
  /\ is_int64 (1 * Minute)
  /\ is_int64 (defaultExpiration sample_cache)
  /\ "1" ∈ Cache_expiredKeys (fun _ => sample_now + 2 * Minute) sample_cache
  /\ exists c',
       Cache_Set (sample_now + 2 * Minute) (sample_now + 2 * Minute)
         sample_cache "1" (Some 2) (1 * Minute) = Returns c'
       /\ Cache_Get (sample_now + 2 * Minute) c' "1" = (Some 2, true)
       /\ map_index
            (items (Cache_clearItems c'
               (Cache_expiredKeys (fun _ => sample_now + 2 * Minute)
                  sample_cache))) "1" = None
       /\ forall later,
            Cache_Get later
              (Cache_clearItems c'
                 (Cache_expiredKeys (fun _ => sample_now + 2 * Minute)
                    sample_cache)) "1"
            = (nil_any, false).
Proof.
  assert (H1 : initialized sample_cache) by discriminate.
  assert (H2 : is_int64 (1 * Minute)) by (vm_compute; split; discriminate).
  assert (H3 : is_int64 (defaultExpiration sample_cache))
    by (vm_compute; split; discriminate).
  assert (H4 : "1" ∈ Cache_expiredKeys (fun _ => sample_now + 2 * Minute)
                      sample_cache) by (vm_compute; constructor).
  split; [exact H1|]. split; [exact H2|]. split; [exact H3|]. split; [exact H4|].
  exact (clearItems_removes_refreshed (fun _ => sample_now + 2 * Minute)
           (sample_now + 2 * Minute) (sample_now + 2 * Minute) sample_cache "1"
           (Some 2) (1 * Minute) H1 H2 H3 H4).
Defined.

Lemma nil_map_cache_witness :
  items zero_cache = None
  /\ (forall now k, Cache_Get now zero_cache k = (nil_any, false))
  /\ Cache_GetAll zero_cache = ∅
  /\ Cache_Count zero_cache = 0
  /\ (forall clock, Cache_expiredKeys clock zero_cache = [])
  /\ (forall k, Cache_Delete zero_cache k = (zero_cache, KeyNotFound))
  /\ (forall now created k value duration,
        Cache_Set now created zero_cache k value duration =
        Panics "assignment to entry in nil map")
  /\ (forall clock, GC_step clock zero_cache gc_waiting
                    = Some (zero_cache, gc_returned))
  /\ (forall clock, GC_step clock zero_cache gc_returned = None).
Proof.
  split; [reflexivity|]. apply (nil_map_cache zero_cache). reflexivity.
Defined.

Lemma configuration_is_fixed_witness :
  reachable (5 * Minute) (1 * Minute) main_system
  /\ defaultExpiration main_system.1 = 5 * Minute
  /\ cleanupInterval main_system.1 = 1 * Minute.
Proof.
  split; [apply reachable_New|].
  apply (configuration_is_fixed (5 * Minute) (1 * Minute) main_system).
  apply reachable_New.
Defined.

Lemma no_goroutine_without_interval_witness :
  0 <= 0
  /\ reachable 0 0 quiet_system
  /\ quiet_system.2 = None
  /\ forall s', step quiet_system s' ->
       s'.2 = None
       /\ forall k,
            is_Some (map_index (items quiet_system.1) k) ->
            map_index (items s'.1) k = None ->
            Cache_Delete quiet_system.1 k = (s'.1, nil_error).
Proof.
  split; [reflexivity|]. split; [apply reachable_New|].
  apply (no_goroutine_without_interval 0 0 quiet_system);
    [reflexivity | apply reachable_New].
Defined.

Lemma Set_all_distinct_keys_witness :
  initialized main_cache
  /\ NoDup ((fun x : Time * Time * (string * any Z * Duration) => x.2.1.1)
              <$> main_schedule)
  /\ exists c',
       Set_all main_cache main_schedule = Returns c'
       /\ (forall now created key value duration,
             (now, created, (key, value, duration)) ∈ main_schedule ->
             map_index (items c') key =
             Some (Set_entry now created main_cache value duration))
       /\ (forall k,
             k ∉ (fun x : Time * Time * (string * any Z * Duration) => x.2.1.1)
                   <$> main_schedule ->
             map_index (items c') k = map_index (items main_cache) k)
       /\ ((forall k,
              k ∈ (fun x : Time * Time * (string * any Z * Duration) => x.2.1.1)
                    <$> main_schedule ->
              map_index (items main_cache) k = None) ->
           Cache_Count c' =
           Cache_Count main_cache + Z.of_nat (length main_schedule)).
Proof.
  assert (H1 : initialized main_cache) by discriminate.
  assert (H2 : NoDup ((fun x : Time * Time * (string * any Z * Duration) =>
                         x.2.1.1) <$> main_schedule)) by compute_done.
  split; [exact H1|]. split; [exact H2|].
  exact (Set_all_distinct_keys main_cache main_schedule H1 H2).
Defined.

